(** * Directional elastic modulus on a triangulated unit sphere

    Shallow embedding of [elasticModulusVisualization.py]:
    the stiffness tensor built from crystal symmetry ([C66fromSymmetry]),
    its Voigt inverse ([inverse66]), the expansion to a fourth-rank tensor
    ([C66toC3333]), the directional modulus ([E_hkl3333]), the subdivision
    of a triangle ([Sierpinsky]), the assembly of the sphere mesh, the
    chain of the script from the constants to the two arrays, and the
    quantities the writers compute from the points.

    Python floats are idealised as elements of an ordered field
    ([realFieldType]; a real closed field where the code takes a square
    root), numpy arrays of rank two with fixed shape as MathComp matrices,
    arrays whose length depends on the subdivision level as sequences. *)

From Stdlib Require Import String Lia.
From HB Require Import structures.
From mathcomp Require Import boot order algebra.
From mathcomp Require Import ring_tactic field_tactic arithmetic_tactic.
From mathcomp Require Import algC.

Set Implicit Arguments.
Unset Strict Implicit.
Unset Printing Implicit Defensive.

Import Order.TTheory GRing.Theory Num.Theory.

Local Open Scope ring_scope.

(** ** Python values and exceptions *)

(** The two exceptions the modelled functions can raise: comparing [None]
    with a float, and [numpy.linalg.inv] on a singular matrix. *)
Inductive pyerr : Type := TypeError | LinAlgError.

Inductive res (T : Type) : Type :=
| Ok of T
| Raise of pyerr.

Arguments Raise {T} e.

Definition bind {T U : Type} (x : res T) (f : T -> res U) : res U :=
  match x with
  | Ok v => f v
  | Raise e => Raise e
  end.

(** Strings are compared with [String.eqb], as Python's [==] on [str]. *)
HB.instance Definition _ := hasDecEq.Build string String.eqb_spec.

(** [x in l] for [x] a string or [None] and [l] a list of strings. *)
Definition py_in (x : option string) (l : seq string) : bool :=
  if x is Some s then s \in l else false.

(** Literal index [k] on an axis of length 6, and on one of length 3. *)
Notation "k %:o" := (@Ordinal 6 k isT) (at level 1, format "k %:o").
Notation "k %:x" := (@Ordinal 3 k isT) (at level 1, format "k %:x").

(** [range(6)] *)
Definition range6 : seq 'I_6 := [:: 0%:o; 1%:o; 2%:o; 3%:o; 4%:o; 5%:o].

Section Tensor.

Variable R : realFieldType.

(** ** Array assignment *)

(** [C[i,j] = v] on a 6x6 array. *)
Definition upd (C : 'M[R]_6) (i j : 'I_6) (v : R) : 'M[R]_6 :=
  \matrix_(a, b) if (a == i) && (b == j) then v else C a b.

(** [C[t1] = C[t2] = ... = v]: the value is computed once and stored in
    the targets from left to right. *)
Definition assign (targets : seq ('I_6 * 'I_6)) (v : R) (C : 'M[R]_6) :
  'M[R]_6 :=
  foldl (fun C t => upd C t.1 t.2 v) C targets.

(** ** Elastic constants *)

(** The keyword arguments [c11 .. c66] of [C66fromSymmetry].  The caller
    always passes [c11] and [c12] as floats; each of the others is a float
    or [None] (an option the command line did not receive). *)
Record constants : Type := Constants {
  c11 : R; c12 : R;
  c13 : option R; c14 : option R; c15 : option R; c16 : option R;
  c22 : option R; c23 : option R; c24 : option R; c25 : option R;
  c26 : option R;
  c33 : option R; c34 : option R; c35 : option R; c36 : option R;
  c44 : option R; c45 : option R; c46 : option R;
  c55 : option R; c56 : option R;
  c66 : option R
}.

(** The defaults of the signature: every constant [0.0]. *)
Definition default_constants : constants :=
  Constants 0 0 (Some 0) (Some 0) (Some 0) (Some 0)
            (Some 0) (Some 0) (Some 0) (Some 0) (Some 0)
            (Some 0) (Some 0) (Some 0) (Some 0)
            (Some 0) (Some 0) (Some 0)
            (Some 0) (Some 0)
            (Some 0).

(** [c and c > 0.0]: [None] and [0.0] are falsy, otherwise the comparison
    decides. *)
Definition provided (c : option R) : bool :=
  if c is Some x then (x != 0) && (0 < x) else false.

(** The float held by [c], read only under [provided c]. *)
Definition the (c : option R) : R := odflt 0 c.

(** [c > 0.0] without the guard: [None > 0.0] raises [TypeError]. *)
Definition gt0 (c : option R) : res bool :=
  if c is Some x then Ok (0 < x) else Raise TypeError.

(** ** C66fromSymmetry *)

(** The body of [C66fromSymmetry] is a sequence of seven [if symmetry in
    [...]] blocks, each updating the array [C] in place.  Each block is a
    function from the array before to the array after, in the order of
    the source; [C66fromSymmetry] below chains them. *)

(** Block guarded by [symmetry in ['isotropic', ..., 'triclinic']]. *)
Definition rules_isotropic (k : constants) (C : 'M[R]_6) : 'M[R]_6 :=
  let C := assign [:: (0%:o, 0%:o); (1%:o, 1%:o); (2%:o, 2%:o)] (c11 k) C in
  let C := assign [:: (3%:o, 3%:o); (4%:o, 4%:o); (5%:o, 5%:o)]
                  (2^-1 * (c11 k - c12 k)) C in
  assign [:: (0%:o, 1%:o); (0%:o, 2%:o); (1%:o, 2%:o);
             (1%:o, 0%:o); (2%:o, 0%:o); (2%:o, 1%:o)] (c12 k) C.

(** Block guarded by [symmetry in ['cubic', ..., 'triclinic']]; the only
    comparison without the [c and] guard. *)
Definition rules_cubic (k : constants) (C : 'M[R]_6) : res 'M[R]_6 :=
  bind (gt0 (c44 k)) (fun pos =>
  Ok (assign [:: (3%:o, 3%:o); (4%:o, 4%:o); (5%:o, 5%:o)]
             (if pos then the (c44 k) else C 3%:o 3%:o) C)).

(** Block guarded by [symmetry in ['tetragonal', ..., 'triclinic']]. *)
Definition rules_tetragonal (k : constants) (C : 'M[R]_6) : 'M[R]_6 :=
  let C := assign [:: (2%:o, 2%:o)]
             (if provided (c33 k) then the (c33 k) else C 0%:o 0%:o) C in
  let C := assign [:: (5%:o, 5%:o)]
             (if provided (c66 k) then the (c66 k) else C 3%:o 3%:o) C in
  let C := assign [:: (0%:o, 2%:o); (1%:o, 2%:o); (2%:o, 0%:o); (2%:o, 1%:o)]
             (if provided (c13 k) then the (c13 k) else C 0%:o 2%:o) C in
  let C := assign [:: (0%:o, 5%:o)]
             (if provided (c16 k) then the (c16 k) else 0) C in
  assign [:: (5%:o, 0%:o)]
             (if provided (c16 k) then - the (c16 k) else 0) C.

(** Block guarded by [symmetry in ['hexagonal', ..., 'triclinic']]. *)
Definition rules_hexagonal (k : constants) (C : 'M[R]_6) : 'M[R]_6 :=
  assign [:: (5%:o, 5%:o)] (2^-1 * (c11 k - c12 k)) C.

(** Block guarded by [symmetry in ['orthorhombic', 'monoclinic',
    'triclinic']]. *)
Definition rules_orthorhombic (k : constants) (C : 'M[R]_6) : 'M[R]_6 :=
  let C := assign [:: (1%:o, 1%:o)]
             (if provided (c22 k) then the (c22 k) else C 0%:o 0%:o) C in
  let C := assign [:: (2%:o, 2%:o)]
             (if provided (c33 k) then the (c33 k) else C 0%:o 0%:o) C in
  let C := assign [:: (4%:o, 4%:o)]
             (if provided (c55 k) then the (c55 k) else C 3%:o 3%:o) C in
  let C := assign [:: (5%:o, 5%:o)]
             (if provided (c66 k) then the (c66 k) else C 3%:o 3%:o) C in
  assign [:: (1%:o, 2%:o); (2%:o, 1%:o)]
             (if provided (c23 k) then the (c23 k) else C 1%:o 2%:o) C.

(** Block guarded by [symmetry in ['monoclinic', 'triclinic']]. *)
Definition rules_monoclinic (k : constants) (C : 'M[R]_6) : 'M[R]_6 :=
  let C := assign [:: (1%:o, 5%:o); (5%:o, 1%:o)]
             (if provided (c26 k) then the (c26 k) else 0) C in
  let C := assign [:: (2%:o, 5%:o); (5%:o, 2%:o)]
             (if provided (c36 k) then the (c36 k) else 0) C in
  assign [:: (3%:o, 4%:o); (4%:o, 3%:o)]
             (if provided (c45 k) then the (c45 k) else 0) C.

(** Block guarded by [symmetry in ['triclinic']]. *)
Definition rules_triclinic (k : constants) (C : 'M[R]_6) : 'M[R]_6 :=
  let C := assign [:: (0%:o, 3%:o); (3%:o, 0%:o)]
             (if provided (c14 k) then the (c14 k) else 0) C in
  let C := assign [:: (0%:o, 4%:o); (4%:o, 0%:o)]
             (if provided (c15 k) then the (c15 k) else 0) C in
  let C := assign [:: (1%:o, 3%:o); (3%:o, 1%:o)]
             (if provided (c24 k) then the (c24 k) else 0) C in
  let C := assign [:: (1%:o, 4%:o); (4%:o, 1%:o)]
             (if provided (c25 k) then the (c25 k) else 0) C in
  let C := assign [:: (2%:o, 3%:o); (3%:o, 2%:o)]
             (if provided (c34 k) then the (c34 k) else 0) C in
  let C := assign [:: (2%:o, 4%:o); (4%:o, 2%:o)]
             (if provided (c35 k) then the (c35 k) else 0) C in
  let C := assign [:: (2%:o, 5%:o); (5%:o, 2%:o)]
             (if provided (c36 k) then the (c36 k) else 0) C in
  let C := assign [:: (3%:o, 5%:o); (5%:o, 3%:o)]
             (if provided (c46 k) then the (c46 k) else 0) C in
  assign [:: (4%:o, 5%:o); (5%:o, 4%:o)]
             (if provided (c56 k) then the (c56 k) else 0) C.

(** [if symmetry in classes: C = block(C)] *)
Definition when (symmetry : option string) (classes : seq string)
    (block : 'M[R]_6 -> 'M[R]_6) (C : 'M[R]_6) : 'M[R]_6 :=
  if py_in symmetry classes then block C else C.

Definition C66fromSymmetry (k : constants) (symmetry : option string) :
  res 'M[R]_6 :=
  let C : 'M[R]_6 := const_mx 0 in
  let C := when symmetry
             [:: "isotropic"; "cubic"; "tetragonal"; "hexagonal";
                 "orthorhombic"; "monoclinic"; "triclinic"]%string
             (rules_isotropic k) C in
  bind (if py_in symmetry
             [:: "cubic"; "tetragonal"; "hexagonal";
                 "orthorhombic"; "monoclinic"; "triclinic"]%string
        then rules_cubic k C else Ok C) (fun C =>
  let C := when symmetry
             [:: "tetragonal"; "hexagonal";
                 "orthorhombic"; "monoclinic"; "triclinic"]%string
             (rules_tetragonal k) C in
  let C := when symmetry
             [:: "hexagonal"; "orthorhombic"; "monoclinic"; "triclinic"]%string
             (rules_hexagonal k) C in
  let C := when symmetry
             [:: "orthorhombic"; "monoclinic"; "triclinic"]%string
             (rules_orthorhombic k) C in
  let C := when symmetry [:: "monoclinic"; "triclinic"]%string
             (rules_monoclinic k) C in
  let C := when symmetry [:: "triclinic"]%string (rules_triclinic k) C in
  Ok C).

(** ** inverse66 *)

(** [W = identity(6); W[3,3] = W[4,4] = W[5,5] = 0.5] *)
Definition W66 : 'M[R]_6 :=
  assign [:: (3%:o, 3%:o); (4%:o, 4%:o); (5%:o, 5%:o)] 2^-1 1%:M.

(** [numpy.linalg.inv] returns the inverse of an invertible matrix and
    raises [LinAlgError] on a singular one; the contraction ['ij,jk,kl']
    is the product of the three matrices. *)
Definition inverse66 (M66 : 'M[R]_6) : res 'M[R]_6 :=
  if M66 \in unitmx then Ok (W66 *m invmx M66 *m W66)
  else Raise LinAlgError.

(** ** C66toC3333 *)

Definition tensor4 : Type := 'I_3 -> 'I_3 -> 'I_3 -> 'I_3 -> R.

(** [np.zeros((3,3,3,3))] *)
Definition zeros3333 : tensor4 := fun _ _ _ _ => 0.

(** [T[i,j,k,l] = v] *)
Definition upd4 (T : tensor4) (i j k l : 'I_3) (v : R) : tensor4 :=
  fun i' j' k' l' =>
    if [&& i' == i, j' == j, k' == k & l' == l] then v else T i' j' k' l'.

Definition index : seq ('I_3 * 'I_3) :=
  [:: (0%:x, 0%:x); (1%:x, 1%:x); (2%:x, 2%:x);
      (1%:x, 2%:x); (0%:x, 2%:x); (0%:x, 1%:x)].

Definition C66toC3333 (stiffness : 'M[R]_6) : tensor4 :=
  foldl (fun (C3333 : tensor4) (a : 'I_6) =>
    let: (i, j) := nth (0%:x, 0%:x) index a in
    foldl (fun (C3333 : tensor4) (b : 'I_6) =>
      let: (k, l) := nth (0%:x, 0%:x) index b in
      let v := stiffness a b in
      let C3333 := upd4 C3333 i j k l v in
      let C3333 := upd4 C3333 i j l k v in
      let C3333 := upd4 C3333 j i k l v in
      upd4 C3333 j i l k v) C3333 range6) zeros3333 range6.

(** ** E_hkl3333 *)

(** The contraction ['...i,...j,...k,...l,ijkl'] for one direction. *)
Definition contraction (S3333 : tensor4) (dir : 'rV[R]_3) : R :=
  \sum_(i < 3) \sum_(j < 3) \sum_(k < 3) \sum_(l < 3)
    dir 0 i * dir 0 j * dir 0 k * dir 0 l * S3333 i j k l.

Definition E_hkl3333 (S3333 : tensor4) (dir : 'rV[R]_3) : R :=
  1 / contraction S3333 dir.

(** A row [[x, y, z]]. *)
Definition vec3 (x y z : R) : 'rV[R]_3 := \row_j nth 0 [:: x; y; z] j.

(** ** Notions used to state the properties of the tensor functions *)

(** Squared Euclidean norm of a direction; a unit direction has
    [norm2 d = 1]. *)
Definition norm2 (d : 'rV[R]_3) : R := \sum_(i < 3) d 0 i ^+ 2.

(** A 6x6 array with the pattern of an isotropic tensor: [a] on the first
    three diagonal places, [g] on the last three, [b] off the diagonal of
    the upper left 3x3 block, zero elsewhere. *)
Definition iso3 (a b g : R) : 'M[R]_6 :=
  \matrix_(i, j) if i == j then (if (i < 3)%N then a else g)
                 else if (i < 3)%N && (j < 3)%N then b else 0.

(** [diag(1,1,1,2,2,2)], the inverse of [W66]. *)
Definition V66 : 'M[R]_6 :=
  assign [:: (3%:o, 3%:o); (4%:o, 4%:o); (5%:o, 5%:o)] 2 1%:M.

(** Symmetric but for the places (0,5) and (5,0), which are opposite. *)
Definition sym_but16 (M : 'M[R]_6) : Prop :=
  (forall i j : 'I_6, (i, j) != (0%:o, 5%:o) -> (i, j) != (5%:o, 0%:o) ->
     M i j = M j i) /\ M 5%:o 0%:o = - M 0%:o 5%:o.

(** The targets of an assignment come in transposed pairs. *)
Definition swap_closed (tg : seq ('I_6 * 'I_6)) : bool :=
  all (fun t => (t.2, t.1) \in tg) tg.

(** A supplied constant that is zero or negative, replaced by the default
    [0.0] of the signature. *)
Definition nonpos_to_default (c : option R) : option R :=
  if c is Some x then (if x <= 0 then Some 0 else Some x) else None.

Definition ignore_nonpos (k : constants) : constants :=
  Constants (c11 k) (c12 k)
    (nonpos_to_default (c13 k)) (nonpos_to_default (c14 k))
    (nonpos_to_default (c15 k)) (nonpos_to_default (c16 k))
    (nonpos_to_default (c22 k)) (nonpos_to_default (c23 k))
    (nonpos_to_default (c24 k)) (nonpos_to_default (c25 k))
    (nonpos_to_default (c26 k))
    (nonpos_to_default (c33 k)) (nonpos_to_default (c34 k))
    (nonpos_to_default (c35 k)) (nonpos_to_default (c36 k))
    (nonpos_to_default (c44 k)) (nonpos_to_default (c45 k))
    (nonpos_to_default (c46 k))
    (nonpos_to_default (c55 k)) (nonpos_to_default (c56 k))
    (nonpos_to_default (c66 k)).

End Tensor.

Arguments assign : simpl never.

(** The Voigt place of a pair of tensor indices: the position of the pair
    (in either order) in [index]. *)
Definition voigt (i j : 'I_3) : 'I_6 :=
  match val i, val j with
  | 0, 0 => 0%:o
  | 1, 1 => 1%:o
  | 2, 2 => 2%:o
  | 1, 2 | 2, 1 => 3%:o
  | 0, 2 | 2, 0 => 4%:o
  | _, _ => 5%:o
  end%N.

(** ** numpy on nested sequences *)

Section Arrays.

Variable T : Type.

(** [A[m]] for a boolean mask [m] of the shape of [A]: the selected
    elements in row-major order. *)
Definition bool_index (A : seq (seq T)) (m : seq (seq bool)) : seq T :=
  flatten [seq mask p.1 p.2 | p <- zip m A].

(** [np.roll(A, -1, axis=0)] and [np.roll(A, -1, axis=1)] *)
Definition roll0 (A : seq (seq T)) : seq (seq T) := rot 1 A.
Definition roll1 (A : seq (seq T)) : seq (seq T) := [seq rot 1 row | row <- A].

(** [s[:-1]] *)
Definition drop_last (s : seq T) : seq T := take (size s).-1 s.

(** [s[::2]] *)
Fixpoint evens (s : seq T) : seq T :=
  match s with
  | x :: _ :: s' => x :: evens s'
  | _ => s
  end.

(** [s[:-2:2]] *)
Definition slice_to_m2_step2 (s : seq T) : seq T :=
  evens (take (size s - 2) s).

(** Three arrays of one shape stacked on a new last axis. *)
Definition zip3 (a b c : seq T) : seq (T * T * T) :=
  [seq (p.1.1, p.1.2, p.2) | p <- zip (zip a b) c].

Definition stack3 (A B C : seq (seq T)) : seq (seq (T * T * T)) :=
  [seq zip3 p.1.1 p.1.2 p.2 | p <- zip (zip A B) C].

(** An array whose rows have length [m]. *)
Definition rows_of (m : nat) (A : seq (seq T)) : bool :=
  all (fun row => size row == m) A.

(** Rows [u] and [d] merged alternately: [u0, d0, u1, d1, ...]. *)
Definition interleave (u d : seq T) : seq T :=
  flatten [seq [:: p.1; p.2] | p <- zip u d].

End Arrays.

(** [np.arange(n)] *)
Definition arange (n : nat) : seq nat := iota 0 n.

(** [np.tril(np.ones((n,n),dtype=bool))] *)
Definition tril_ones (n : nat) : seq (seq bool) :=
  [seq [seq (b <= a)%N | b <- arange n] | a <- arange n].

(** [np.meshgrid(x, y, indexing='ij')] *)
Definition meshgrid_ij (x y : seq nat) : seq (seq nat) * seq (seq nat) :=
  ([seq nseq (size y) a | a <- x], nseq (size x) y).

(** [np.cumsum(r)] *)
Definition cumsum (r : seq nat) : seq nat := scanl addn 0%N r.

(** [A + np.atleast_2d(col).T]: [col[a]] added to every element of row
    [a]. *)
Definition add_column (A : seq (seq nat)) (col : seq nat) : seq (seq nat) :=
  [seq [seq (x + p.2)%N | x <- p.1] | p <- zip A col].

(** The array
    [[c, roll0 c, roll1 (roll0 c)], [c, roll1 (roll0 c), roll1 c]]
    after [.transpose(2,3,0,1).reshape((n,2*n,3))]: row [a] holds, for each
    column [b] of [c] in turn, the triple of the first group and then the
    triple of the second group. *)
Definition triangle_rows (c : seq (seq nat)) : seq (seq (nat * nat * nat)) :=
  let up := stack3 c (roll0 c) (roll1 (roll0 c)) in
  let down := stack3 c (roll1 (roll0 c)) (roll1 c) in
  [seq interleave p.1 p.2 | p <- zip up down].

(** ** Notions used to state the properties of the subdivision *)

(** The lattice points [(a, b)], [b <= a < n], row after row. *)
Definition lattice (n : nat) : seq (nat * nat) :=
  flatten [seq [seq (a, b) | b <- iota 0 a.+1] | a <- iota 0 n].

(** [a (a + 1) / 2] *)
Definition tri (a : nat) : nat := ((a * a.+1) %/ 2)%N.

(** A triple of indices all satisfying [p]. *)
Definition tri_in (p : pred nat) (t : nat * nat * nat) : bool :=
  [&& p t.1.1, p t.1.2 & p t.2].

(** The two triangles hanging below the lattice point [(a, b)], as
    triples of positions in the row-after-row numbering of the lattice:
    [(a,b), (a+1,b), (a+1,b+1)] and [(a,b), (a+1,b+1), (a,b+1)]. *)
Definition up_triangle (a b : nat) : nat * nat * nat :=
  ((b + tri a)%N, (b + tri a.+1)%N, (b.+1 + tri a.+1)%N).

Definition down_triangle (a b : nat) : nat * nat * nat :=
  ((b + tri a)%N, (b.+1 + tri a.+1)%N, (b.+1 + tri a)%N).

(** A triple of pairwise different indices. *)
Definition tri_distinct (t : nat * nat * nat) : bool :=
  [&& t.1.1 != t.1.2, t.1.1 != t.2 & t.1.2 != t.2].

(** The triangles of a face with [m] subdivisions per edge, row after
    row: in row [a] the triangles below [(a,0)], ..., [(a,a-1)] in pairs
    and then the single one below [(a,a)]. *)
Definition lattice_triangles (m : nat) : seq (nat * nat * nat) :=
  flatten [seq rcons (flatten [seq [:: up_triangle a b; down_triangle a b]
                              | b <- iota 0 a])
                     (up_triangle a a)
          | a <- iota 0 m].

(** ** The sphere *)

Section Mesh.

Variable R : rcfType.

Definition node : seq 'rV[R]_3 :=
  [:: vec3 1 0 0; vec3 (-1) 0 0; vec3 0 1 0; vec3 0 (-1) 0;
      vec3 0 0 1; vec3 0 0 (-1)].

Definition octahedron : seq (seq nat) :=
  [:: [:: 0; 2; 4]; [:: 2; 1; 4]; [:: 1; 3; 4]; [:: 3; 0; 4];
      [:: 0; 5; 2]; [:: 2; 5; 1]; [:: 1; 5; 3]; [:: 3; 5; 0]]%N.

(** [v/np.linalg.norm(v,axis=-1,keepdims=True)] for one row [v]. *)
Definition normalize (v : 'rV[R]_3) : 'rV[R]_3 :=
  \row_j (v 0 j / Num.sqrt (\sum_(i < 3) v 0 i ^+ 2)).

Definition Sierpinsky (N : nat) : seq 'rV[R]_3 * seq (nat * nat * nat) :=
  let n := (1 + 2 ^ N)%N in
  let r := arange n in
  let tril_n := tril_ones n in
  let: (k, l) := meshgrid_ij r r in
  let i := bool_index k tril_n in
  let j := bool_index l tril_n in
  let c := add_column l (cumsum r) in
  ([seq vec3 (t.1.1%:R / (n - 1)%:R) (t.1.2%:R / (n - 1)%:R)
             (t.2%:R / (n - 1)%:R)
    | t <- zip3 [seq (n - 1 - x)%N | x <- i]
                [seq (p.1 - p.2)%N | p <- zip i j] j],
   bool_index (drop_last (triangle_rows c))
              (slice_to_m2_step2 (tril_ones (2 * n)))).

(** The barycentric weights of the lattice point [(a, b)] for [n] points
    per edge. *)
Definition weight_of (n : nat) (p : nat * nat) : 'rV[R]_3 :=
  vec3 ((n - 1 - p.1)%:R / (n - 1)%:R) ((p.1 - p.2)%:R / (n - 1)%:R)
       (p.2%:R / (n - 1)%:R).

(** [len(octahedron)] *)
Definition N_faces : nat := size octahedron.

(** [connectivity]: the triangles of the subdivided face, once per face,
    shifted by [len(weights)] times the number of the face. *)
Definition connectivity (N : nat) : seq (nat * nat * nat) :=
  let: (weights, c) := Sierpinsky N in
  flatten [seq [seq ((size weights * f + t.1.1)%N,
                     (size weights * f + t.1.2)%N,
                     (size weights * f + t.2)%N) | t <- c]
          | f <- arange N_faces].

(** [node[octahedron]]: the three corners of each face. *)
Definition face_corners : seq (seq 'rV[R]_3) :=
  [seq [seq nth 0 node v | v <- face] | face <- octahedron].

(** One row of [einsum('ik,...kj', weights, node[octahedron])]: the
    combination of the corners of a face with the weights [w]. *)
Definition combine (w : 'rV[R]_3) (corners : seq 'rV[R]_3) : 'rV[R]_3 :=
  \row_j \sum_(k < 3) w 0 k * (nth 0 corners k) 0 j.

(** [normalize(einsum(...)).reshape((-1,3))]: the directions, face after
    face. *)
Definition directions (N : nat) : seq 'rV[R]_3 :=
  let: (weights, c) := Sierpinsky N in
  flatten [seq [seq normalize (combine w corners) | w <- weights]
          | corners <- face_corners].

(** [nodes *= E_hkl3333(S3333,nodes)[...,np.newaxis]] *)
Definition nodes (S3333 : tensor4 R) (N : nat) : seq 'rV[R]_3 :=
  [seq \row_j (p 0 j * E_hkl3333 S3333 p) | p : 'rV[R]_3 <- directions N].

End Mesh.

(** ** The script *)

Section Script.

(** [S3333 = C66toC3333(inverse66(C66fromSymmetry(...)))] *)
Definition main_S3333 (R : realFieldType) (k : constants R)
    (symmetry : option string) : res (tensor4 R) :=
  bind (C66fromSymmetry k symmetry) (fun C =>
  bind (inverse66 C) (fun S => Ok (C66toC3333 S))).

(** The script from [S3333 = ...] to the two arrays handed to the
    writer. *)
Definition main (R : rcfType) (k : constants R) (symmetry : option string)
    (N : nat) : res (seq 'rV[R]_3 * seq (nat * nat * nat)) :=
  bind (main_S3333 k symmetry) (fun S3333 =>
  Ok (nodes S3333 N, connectivity R N)).

End Script.

(** ** The writers *)

Section Writers.

Variable R : rcfType.

(** [np.linalg.norm(v)] for one row [v]. *)
Definition linalg_norm (v : 'rV[R]_3) : R := Num.sqrt (norm2 v).

(** [np.max] and [np.min] of a non-empty array. *)
Definition np_max (s : seq R) : R := foldr Num.max (head 0 s) (behead s).
Definition np_min (s : seq R) : R := foldr Num.min (head 0 s) (behead s).

(** [vtk_writeData]: the value inserted in the array ["E"] for the point
    [p]. *)
Definition vtk_magnitude (p : 'rV[R]_3) : R := linalg_norm p.

(** [x3d_writeData]: [auto], [minimum] and the argument [fraction] of the
    colormap for the point [v]. *)
Definition x3d_auto (coords : seq 'rV[R]_3) : R :=
  np_max [seq linalg_norm v | v <- coords].

Definition x3d_minimum (coords : seq 'rV[R]_3) : R :=
  np_min [seq linalg_norm v | v <- coords].

Definition x3d_fraction (coords : seq 'rV[R]_3) (v : 'rV[R]_3) : R :=
  linalg_norm v / x3d_auto coords.

End Writers.

(** The options [--c13] to [--c66] of the command line, row after row of
    the upper triangle. *)
Definition optional_constants (R : realFieldType) (k : constants R) :
  seq (option R) :=
  [:: c13 k; c14 k; c15 k; c16 k; c22 k; c23 k; c24 k; c25 k; c26 k;
      c33 k; c34 k; c35 k; c36 k; c44 k; c45 k; c46 k; c55 k; c56 k; c66 k].

(** The 21 constants at their places of the upper triangle. *)
Definition upper_triangle (R : realFieldType) (k : constants R) :
  seq ('I_6 * 'I_6 * R) :=
  [:: (0%:o, 0%:o, c11 k); (0%:o, 1%:o, c12 k); (0%:o, 2%:o, the (c13 k));
      (0%:o, 3%:o, the (c14 k)); (0%:o, 4%:o, the (c15 k));
      (0%:o, 5%:o, the (c16 k));
      (1%:o, 1%:o, the (c22 k)); (1%:o, 2%:o, the (c23 k));
      (1%:o, 3%:o, the (c24 k)); (1%:o, 4%:o, the (c25 k));
      (1%:o, 5%:o, the (c26 k));
      (2%:o, 2%:o, the (c33 k)); (2%:o, 3%:o, the (c34 k));
      (2%:o, 4%:o, the (c35 k)); (2%:o, 5%:o, the (c36 k));
      (3%:o, 3%:o, the (c44 k)); (3%:o, 4%:o, the (c45 k));
      (3%:o, 5%:o, the (c46 k));
      (4%:o, 4%:o, the (c55 k)); (4%:o, 5%:o, the (c56 k));
      (5%:o, 5%:o, the (c66 k))].

(** The constants [k] with the option [--c66] replaced by [x]. *)
Definition set_c66 (R : realFieldType) (k : constants R) (x : option R) :
  constants R :=
  Constants (c11 k) (c12 k) (c13 k) (c14 k) (c15 k) (c16 k) (c22 k) (c23 k)
            (c24 k) (c25 k) (c26 k) (c33 k) (c34 k) (c35 k) (c36 k) (c44 k)
            (c45 k) (c46 k) (c55 k) (c56 k) x.

(** ** Example inputs *)

(** [--c11 200 --c12 100]: every other option absent. *)
Definition example_isotropic : constants rat :=
  Constants 200 100 None None None None None None None None None
            None None None None None None None None None None.

(** [--c11 200 --c12 100 --c13 90 --c16 5 --c33 -1 --c44 80 --c66 0] *)
Definition example_tetragonal : constants rat :=
  Constants 200 100 (Some 90) None None (Some 5) None None None None None
            (Some (-1)) None None None (Some 80) None None None None (Some 0).

(** [--c11 200 --c12 100 --c44 -5] *)
Definition example_cubic : constants rat :=
  Constants 200 100 None None None None None None None None None
            None None None None (Some (-5)) None None None None None.

(** [--c11 200 --c12 100 --c44 80] *)
Definition example_cubic80 : constants rat :=
  Constants 200 100 None None None None None None None None None
            None None None None (Some 80) None None None None None.

(** All 21 options given, [--c11 11 --c12 12 ... --c66 66]. *)
Definition example_triclinic : constants rat :=
  Constants 11 12 (Some 13) (Some 14) (Some 15) (Some 16)
            (Some 22) (Some 23) (Some 24) (Some 25) (Some 26)
            (Some 33) (Some 34) (Some 35) (Some 36)
            (Some 44) (Some 45) (Some 46) (Some 55) (Some 56) (Some 66).

(** [--c11 200 --c12 100], over the real algebraic numbers. *)
Definition example_isotropic_alg : constants algR :=
  Constants 200 100 None None None None None None None None None
            None None None None None None None None None None.

(** The compliance tensor of [--c11 200 --c12 100 --symmetry isotropic],
    over the real algebraic numbers. *)
Definition example_S3333 : tensor4 algR :=
  C66toC3333
    (W66 algR *m
     invmx (rules_isotropic
              (Constants 200 100 None None None None None None None None
                         None None None None None None None None None None
                         None)
              (const_mx 0)) *m
     W66 algR).

(** ** The symmetry classes *)

(** The outcomes of the seven tests [symmetry in [...]] of
    [C66fromSymmetry], and of the test for ['hexagonal'] alone: the lists
    are nested, so only eight combinations occur. *)
Variant class_spec (s : option string) :
  bool -> bool -> bool -> bool -> bool -> bool -> bool -> bool -> Type :=
| ClassOther :
    class_spec s false false false false false false false false
| ClassIsotropic of s = Some "isotropic"%string :
    class_spec s true false false false false false false false
| ClassCubic of s = Some "cubic"%string :
    class_spec s true true false false false false false false
| ClassTetragonal of s = Some "tetragonal"%string :
    class_spec s true true true false false false false false
| ClassHexagonal of s = Some "hexagonal"%string :
    class_spec s true true true true false false false true
| ClassOrthorhombic of s = Some "orthorhombic"%string :
    class_spec s true true true true true false false false
| ClassMonoclinic of s = Some "monoclinic"%string :
    class_spec s true true true true true true false false
| ClassTriclinic of s = Some "triclinic"%string :
    class_spec s true true true true true true true false.

(** * Properties *)

(** Evaluates the tests [symmetry in [...]] for a literal [symmetry]. *)
Ltac eval_py_in :=
  repeat match goal with
  | |- context [py_in (Some ?x) ?l] =>
      let b := eval vm_compute in (py_in (Some x) l) in
      have -> : py_in (Some x) l = b by vm_compute
  end.

(** The tests [symmetry in [...]] of [C66fromSymmetry], all at once. *)
Lemma classP s :
  class_spec s
    (py_in s [:: "isotropic"; "cubic"; "tetragonal"; "hexagonal";
                 "orthorhombic"; "monoclinic"; "triclinic"]%string)
    (py_in s [:: "cubic"; "tetragonal"; "hexagonal";
                 "orthorhombic"; "monoclinic"; "triclinic"]%string)
    (py_in s [:: "tetragonal"; "hexagonal";
                 "orthorhombic"; "monoclinic"; "triclinic"]%string)
    (py_in s [:: "hexagonal"; "orthorhombic"; "monoclinic";
                 "triclinic"]%string)
    (py_in s [:: "orthorhombic"; "monoclinic"; "triclinic"]%string)
    (py_in s [:: "monoclinic"; "triclinic"]%string)
    (py_in s [:: "triclinic"]%string)
    (py_in s [:: "hexagonal"]%string).
Proof.
case: s => [str|]; last exact: ClassOther.
have [e|n1] := altP (str =P "isotropic"%string).
  by rewrite e; apply: ClassIsotropic.
have [e|n2] := altP (str =P "cubic"%string).
  by rewrite e; apply: ClassCubic.
have [e|n3] := altP (str =P "tetragonal"%string).
  by rewrite e; apply: ClassTetragonal.
have [e|n4] := altP (str =P "hexagonal"%string).
  by rewrite e; apply: ClassHexagonal.
have [e|n5] := altP (str =P "orthorhombic"%string).
  by rewrite e; apply: ClassOrthorhombic.
have [e|n6] := altP (str =P "monoclinic"%string).
  by rewrite e; apply: ClassMonoclinic.
have [e|n7] := altP (str =P "triclinic"%string).
  by rewrite e; apply: ClassTriclinic.
rewrite /py_in !inE (negbTE n1) (negbTE n2) (negbTE n3) (negbTE n4).
by rewrite (negbTE n5) (negbTE n6) (negbTE n7); apply: ClassOther.
Qed.

Section TensorTheory.

Variable R : realFieldType.

Implicit Types (C M : 'M[R]_6) (k : constants R) (s : option string).

(** ** Array assignment *)

Lemma assignE tg v C a b :
  assign tg v C a b = if (a, b) \in tg then v else C a b.
Proof.
elim: tg C => [|[i j] tg IH] C //.
rewrite /assign /= -/(assign tg v _) IH mxE in_cons.
rewrite [(a, b) == (i, j)]/eq_op /=.
by case: ((a, b) \in tg); rewrite ?orbT ?orbF.
Qed.

(** ** Which blocks run *)

Lemma py_in_behead s x l : py_in s (x :: l) = false -> py_in s l = false.
Proof.
case: s => [str|] //=; rewrite in_cons => /negbT.
by rewrite negb_or => /andP[_ /negbTE].
Qed.

Lemma C66_unrecognized k s :
  py_in s [:: "isotropic"; "cubic"; "tetragonal"; "hexagonal";
              "orthorhombic"; "monoclinic"; "triclinic"]%string = false ->
  C66fromSymmetry k s = Ok (const_mx 0).
Proof.
move=> h7; have h6 := py_in_behead h7; have h5 := py_in_behead h6.
have h4 := py_in_behead h5; have h3 := py_in_behead h4.
have h2 := py_in_behead h3; have h1 := py_in_behead h2.
by rewrite /C66fromSymmetry /when h7 h6 /= h5 h4 h3 h2 h1.
Qed.

Lemma C66_isotropic k :
  C66fromSymmetry k (Some "isotropic"%string) =
  Ok (rules_isotropic k (const_mx 0)).
Proof. by rewrite /C66fromSymmetry /when; eval_py_in. Qed.

Lemma C66_cubic k :
  C66fromSymmetry k (Some "cubic"%string) =
  rules_cubic k (rules_isotropic k (const_mx 0)).
Proof.
rewrite /C66fromSymmetry /when; eval_py_in.
by case: (rules_cubic _ _).
Qed.

Lemma C66_tetragonal k :
  C66fromSymmetry k (Some "tetragonal"%string) =
  bind (rules_cubic k (rules_isotropic k (const_mx 0)))
       (fun C => Ok (rules_tetragonal k C)).
Proof. by rewrite /C66fromSymmetry /when; eval_py_in. Qed.

Lemma rules_isotropicE k (i j : 'I_6) :
  rules_isotropic k (const_mx 0) i j =
  if i == j then (if (i < 3)%N then c11 k else 2^-1 * (c11 k - c12 k))
  else if (i < 3)%N && (j < 3)%N then c12 k else 0.
Proof.
rewrite /rules_isotropic !assignE mxE.
by case: i => [[|[|[|[|[|[|i]]]]]] Hi] //; case: j => [[|[|[|[|[|[|j]]]]]] Hj].
Qed.

(** ** Symmetry of the built matrix *)

Lemma assign_sym tg v C :
  swap_closed tg -> (0%:o, 5%:o) \notin tg -> (5%:o, 0%:o) \notin tg ->
  sym_but16 C -> sym_but16 (assign tg v C).
Proof.
move=> /allP cl /negbTE n05 /negbTE n50 [sC aC]; split=> [i j ij05 ij50|].
  rewrite !assignE sC //.
  have -> // : ((i, j) \in tg) = ((j, i) \in tg).
  by apply/idP/idP => /cl.
by rewrite !assignE n05 n50.
Qed.

Lemma assign16_sym v C :
  sym_but16 C ->
  sym_but16 (assign [:: (5%:o, 0%:o)] (- v) (assign [:: (0%:o, 5%:o)] v C)).
Proof.
move=> [sC aC]; split=> [i j /negbTE ij05 /negbTE ij50|].
  rewrite !assignE !inE ij05 ij50 sC ?ij05 ?ij50 //.
  have -> : ((j, i) == (5%:o, 0%:o)) = ((i, j) == (0%:o, 5%:o)).
    by rewrite /eq_op /= andbC.
  have -> : ((j, i) == (0%:o, 5%:o)) = ((i, j) == (5%:o, 0%:o)).
    by rewrite /eq_op /= andbC.
  by rewrite ij05 ij50.
by rewrite !assignE.
Qed.

Lemma when_sym s l (f : 'M[R]_6 -> 'M[R]_6) C :
  (forall C, sym_but16 C -> sym_but16 (f C)) ->
  sym_but16 C -> sym_but16 (when s l f C).
Proof. by rewrite /when; case: (py_in s l) => // h; apply: h. Qed.

Lemma rules_isotropic_sym k C : sym_but16 C -> sym_but16 (rules_isotropic k C).
Proof. by move=> h; rewrite /rules_isotropic; do ![apply: assign_sym => //]. Qed.

Lemma rules_cubic_sym k C M :
  rules_cubic k C = Ok M -> sym_but16 C -> sym_but16 M.
Proof.
rewrite /rules_cubic /gt0 /bind; case: (c44 k) => [x|] // [<-] h.
by apply: assign_sym.
Qed.

Lemma rules_tetragonal_sym k C :
  sym_but16 C -> sym_but16 (rules_tetragonal k C).
Proof.
move=> h; rewrite /rules_tetragonal.
have -> : (if provided (c16 k) then - the (c16 k) else 0) =
          - (if provided (c16 k) then the (c16 k) else 0).
  by case: (provided (c16 k)); rewrite ?oppr0.
by apply: assign16_sym; do ![apply: assign_sym => //].
Qed.

Lemma rules_hexagonal_sym k C : sym_but16 C -> sym_but16 (rules_hexagonal k C).
Proof. by move=> h; apply: assign_sym. Qed.

Lemma rules_orthorhombic_sym k C :
  sym_but16 C -> sym_but16 (rules_orthorhombic k C).
Proof.
by move=> h; rewrite /rules_orthorhombic; do ![apply: assign_sym => //].
Qed.

Lemma rules_monoclinic_sym k C :
  sym_but16 C -> sym_but16 (rules_monoclinic k C).
Proof.
by move=> h; rewrite /rules_monoclinic; do ![apply: assign_sym => //].
Qed.

Lemma rules_triclinic_sym k C :
  sym_but16 C -> sym_but16 (rules_triclinic k C).
Proof.
by move=> h; rewrite /rules_triclinic; do ![apply: assign_sym => //].
Qed.

Lemma C66_sym k s M : C66fromSymmetry k s = Ok M -> sym_but16 M.
Proof.
rewrite /C66fromSymmetry.
set C0 := when _ _ _ _.
have hC0 : sym_but16 C0.
  apply: when_sym; first exact: rules_isotropic_sym.
  by split=> [i j _ _|]; rewrite !mxE ?oppr0.
case hc: (if _ then _ else _) => [C1|e] //= [<-].
have hC1 : sym_but16 C1.
  by move: hc; case: ifP => _ => [/rules_cubic_sym|[<-]] //; apply.
apply: when_sym; first exact: rules_triclinic_sym.
apply: when_sym; first exact: rules_monoclinic_sym.
apply: when_sym; first exact: rules_orthorhombic_sym.
apply: when_sym; first exact: rules_hexagonal_sym.
by apply: when_sym; first exact: rules_tetragonal_sym.
Qed.

Lemma when_entry s l (f : 'M[R]_6 -> 'M[R]_6) C (a b : 'I_6) :
  (forall C, f C a b = C a b) -> when s l f C a b = C a b.
Proof. by rewrite /when; case: (py_in s l). Qed.

Lemma C66_c16 k s M :
  C66fromSymmetry k s = Ok M ->
  M 0%:o 5%:o =
    if py_in s [:: "tetragonal"; "hexagonal";
                   "orthorhombic"; "monoclinic"; "triclinic"]%string
       && provided (c16 k)
    then the (c16 k) else 0.
Proof.
rewrite /C66fromSymmetry.
set C0 := when _ _ _ _.
have hC0 : C0 0%:o 5%:o = 0.
  have iso C : rules_isotropic k C 0%:o 5%:o = C 0%:o 5%:o.
    by rewrite /rules_isotropic !assignE.
  by rewrite (@when_entry _ _ _ _ _ _ iso) mxE.
case hc: (if _ then _ else _) => [C1|e] //= [<-].
have hC1 : C1 0%:o 5%:o = 0.
  move: hc; case: ifP => _; last by case=> <-.
  rewrite /rules_cubic /gt0 /bind; case: (c44 k) => // x [<-].
  by rewrite assignE.
have tri C : rules_triclinic k C 0%:o 5%:o = C 0%:o 5%:o.
  by rewrite /rules_triclinic !assignE.
have mon C : rules_monoclinic k C 0%:o 5%:o = C 0%:o 5%:o.
  by rewrite /rules_monoclinic !assignE.
have ort C : rules_orthorhombic k C 0%:o 5%:o = C 0%:o 5%:o.
  by rewrite /rules_orthorhombic !assignE.
have hex C : rules_hexagonal k C 0%:o 5%:o = C 0%:o 5%:o.
  by rewrite /rules_hexagonal !assignE.
rewrite (@when_entry _ _ _ _ _ _ tri) (@when_entry _ _ _ _ _ _ mon).
rewrite (@when_entry _ _ _ _ _ _ ort) (@when_entry _ _ _ _ _ _ hex) /when.
case: (py_in s _); last by rewrite andFb.
by rewrite andTb /rules_tetragonal !assignE /=; case: (provided _).
Qed.

(** ** The defaulting predicate *)

Lemma provided_pos (c : option R) :
  provided c = if c is Some x then 0 < x else false.
Proof. by case: c => // x; rewrite /provided andbC; case: ltrgt0P. Qed.

Lemma sel_nonpos (c : option R) (d : R) :
  (if provided (nonpos_to_default c) then the (nonpos_to_default c) else d) =
  (if provided c then the c else d).
Proof.
rewrite !provided_pos; case: c => //= x.
case: (lerP x 0) => x0 /=; last by rewrite x0.
by rewrite ltxx.
Qed.

Lemma nsel_nonpos (c : option R) (d : R) :
  (if provided (nonpos_to_default c) then - the (nonpos_to_default c) else d)
  = (if provided c then - the c else d).
Proof.
rewrite !provided_pos; case: c => //= x.
case: (lerP x 0) => x0 /=; last by rewrite x0.
by rewrite ltxx.
Qed.

Lemma rules_cubic_nonpos k C :
  rules_cubic (ignore_nonpos k) C = rules_cubic k C.
Proof.
rewrite /rules_cubic /=; case: (c44 k) => //= x.
case: (lerP x 0) => x0 /=; last by rewrite x0.
by rewrite ltxx.
Qed.

Lemma C66_ignore_nonpos k s :
  C66fromSymmetry (ignore_nonpos k) s = C66fromSymmetry k s.
Proof.
rewrite /C66fromSymmetry rules_cubic_nonpos.
have -> : rules_isotropic (ignore_nonpos k) = rules_isotropic k by [].
have -> : rules_hexagonal (ignore_nonpos k) = rules_hexagonal k by [].
have tet C : rules_tetragonal (ignore_nonpos k) C = rules_tetragonal k C.
  by rewrite /rules_tetragonal /= !sel_nonpos nsel_nonpos.
have ort C : rules_orthorhombic (ignore_nonpos k) C = rules_orthorhombic k C.
  by rewrite /rules_orthorhombic /= !sel_nonpos.
have mon C : rules_monoclinic (ignore_nonpos k) C = rules_monoclinic k C.
  by rewrite /rules_monoclinic /= !sel_nonpos.
have tri C : rules_triclinic (ignore_nonpos k) C = rules_triclinic k C.
  by rewrite /rules_triclinic /= !sel_nonpos.
case: (if _ then _ else _) => [C|e]; rewrite /bind; last by [].
by rewrite /when tet ort mon tri.
Qed.

Lemma C66_cubic_default k x :
  c44 k = Some x -> x <= 0 ->
  exists M, [/\ C66fromSymmetry k (Some "cubic"%string) = Ok M,
     M 3%:o 3%:o = 2^-1 * (c11 k - c12 k),
     M 4%:o 4%:o = 2^-1 * (c11 k - c12 k) &
     M 5%:o 5%:o = 2^-1 * (c11 k - c12 k)].
Proof.
move=> kx x0; rewrite C66_cubic /rules_cubic kx /= ltNge x0 /=.
by eexists; split; first reflexivity; rewrite /rules_isotropic !assignE.
Qed.

(** ** The entries after each block *)

Lemma rules_tetragonalE k C (a b : 'I_6) :
  rules_tetragonal k C a b =
  if (a, b) \in [:: (5%:o, 0%:o)]
  then (if provided (c16 k) then - the (c16 k) else 0)
  else if (a, b) \in [:: (0%:o, 5%:o)]
  then (if provided (c16 k) then the (c16 k) else 0)
  else if (a, b) \in [:: (0%:o, 2%:o); (1%:o, 2%:o); (2%:o, 0%:o); (2%:o, 1%:o)]
  then (if provided (c13 k) then the (c13 k) else C 0%:o 2%:o)
  else if (a, b) \in [:: (5%:o, 5%:o)]
  then (if provided (c66 k) then the (c66 k) else C 3%:o 3%:o)
  else if (a, b) \in [:: (2%:o, 2%:o)]
  then (if provided (c33 k) then the (c33 k) else C 0%:o 0%:o)
  else C a b.
Proof. by rewrite /rules_tetragonal !assignE. Qed.

Lemma rules_hexagonalE k C (a b : 'I_6) :
  rules_hexagonal k C a b =
  if (a, b) \in [:: (5%:o, 5%:o)] then 2^-1 * (c11 k - c12 k) else C a b.
Proof. by rewrite /rules_hexagonal assignE. Qed.

Lemma rules_orthorhombicE k C (a b : 'I_6) :
  rules_orthorhombic k C a b =
  if (a, b) \in [:: (1%:o, 2%:o); (2%:o, 1%:o)]
  then (if provided (c23 k) then the (c23 k) else C 1%:o 2%:o)
  else if (a, b) \in [:: (5%:o, 5%:o)]
  then (if provided (c66 k) then the (c66 k) else C 3%:o 3%:o)
  else if (a, b) \in [:: (4%:o, 4%:o)]
  then (if provided (c55 k) then the (c55 k) else C 3%:o 3%:o)
  else if (a, b) \in [:: (2%:o, 2%:o)]
  then (if provided (c33 k) then the (c33 k) else C 0%:o 0%:o)
  else if (a, b) \in [:: (1%:o, 1%:o)]
  then (if provided (c22 k) then the (c22 k) else C 0%:o 0%:o)
  else C a b.
Proof. by rewrite /rules_orthorhombic !assignE. Qed.

Lemma rules_monoclinicE k C (a b : 'I_6) :
  rules_monoclinic k C a b =
  if (a, b) \in [:: (3%:o, 4%:o); (4%:o, 3%:o)]
  then (if provided (c45 k) then the (c45 k) else 0)
  else if (a, b) \in [:: (2%:o, 5%:o); (5%:o, 2%:o)]
  then (if provided (c36 k) then the (c36 k) else 0)
  else if (a, b) \in [:: (1%:o, 5%:o); (5%:o, 1%:o)]
  then (if provided (c26 k) then the (c26 k) else 0)
  else C a b.
Proof. by rewrite /rules_monoclinic !assignE. Qed.

Lemma rules_triclinicE k C (a b : 'I_6) :
  rules_triclinic k C a b =
  if (a, b) \in [:: (4%:o, 5%:o); (5%:o, 4%:o)]
  then (if provided (c56 k) then the (c56 k) else 0)
  else if (a, b) \in [:: (3%:o, 5%:o); (5%:o, 3%:o)]
  then (if provided (c46 k) then the (c46 k) else 0)
  else if (a, b) \in [:: (2%:o, 5%:o); (5%:o, 2%:o)]
  then (if provided (c36 k) then the (c36 k) else 0)
  else if (a, b) \in [:: (2%:o, 4%:o); (4%:o, 2%:o)]
  then (if provided (c35 k) then the (c35 k) else 0)
  else if (a, b) \in [:: (2%:o, 3%:o); (3%:o, 2%:o)]
  then (if provided (c34 k) then the (c34 k) else 0)
  else if (a, b) \in [:: (1%:o, 4%:o); (4%:o, 1%:o)]
  then (if provided (c25 k) then the (c25 k) else 0)
  else if (a, b) \in [:: (1%:o, 3%:o); (3%:o, 1%:o)]
  then (if provided (c24 k) then the (c24 k) else 0)
  else if (a, b) \in [:: (0%:o, 4%:o); (4%:o, 0%:o)]
  then (if provided (c15 k) then the (c15 k) else 0)
  else if (a, b) \in [:: (0%:o, 3%:o); (3%:o, 0%:o)]
  then (if provided (c14 k) then the (c14 k) else 0)
  else C a b.
Proof. by rewrite /rules_triclinic !assignE. Qed.

(** ** The blocks run for each class *)

Lemma C66_hexagonal k :
  C66fromSymmetry k (Some "hexagonal"%string) =
  bind (rules_cubic k (rules_isotropic k (const_mx 0)))
       (fun C => Ok (rules_hexagonal k (rules_tetragonal k C))).
Proof. by rewrite /C66fromSymmetry /when; eval_py_in. Qed.

Lemma C66_triclinic k :
  C66fromSymmetry k (Some "triclinic"%string) =
  bind (rules_cubic k (rules_isotropic k (const_mx 0)))
       (fun C => Ok (rules_triclinic k (rules_monoclinic k
                       (rules_orthorhombic k (rules_hexagonal k
                          (rules_tetragonal k C)))))).
Proof. by rewrite /C66fromSymmetry /when; eval_py_in. Qed.

Lemma C66_orthorhombic k :
  C66fromSymmetry k (Some "orthorhombic"%string) =
  bind (rules_cubic k (rules_isotropic k (const_mx 0)))
       (fun C => Ok (rules_orthorhombic k (rules_hexagonal k
                       (rules_tetragonal k C)))).
Proof. by rewrite /C66fromSymmetry /when; eval_py_in. Qed.

Lemma C66_monoclinic k :
  C66fromSymmetry k (Some "monoclinic"%string) =
  bind (rules_cubic k (rules_isotropic k (const_mx 0)))
       (fun C => Ok (rules_monoclinic k (rules_orthorhombic k
                       (rules_hexagonal k (rules_tetragonal k C))))).
Proof. by rewrite /C66fromSymmetry /when; eval_py_in. Qed.

Lemma provided_Some (x : R) : provided (Some x) = (0 < x).
Proof. by rewrite provided_pos. Qed.

End TensorTheory.

Section VoigtTheory.

Variable R : realFieldType.

Implicit Types (C M : 'M[R]_6) (k : constants R) (d : 'rV[R]_3).

(** ** Expansion to the fourth-rank tensor *)

Lemma C66toC3333E (stiffness : 'M[R]_6) (i j p q : 'I_3) :
  C66toC3333 stiffness i j p q = stiffness (voigt i j) (voigt p q).
Proof.
case: i => [[|[|[|i]]] Hi] //; case: j => [[|[|[|j]]] Hj] //;
  case: p => [[|[|[|p]]] Hp] //; case: q => [[|[|[|q]]] Hq] //; reflexivity.
Qed.

Lemma voigtC (a b : 'I_3) : voigt a b = voigt b a.
Proof. by case: a => [[|[|[|a]]] Ha] //; case: b => [[|[|[|b]]] Hb]. Qed.

Lemma sum3 (f : 'I_3 -> R) : \sum_(i < 3) f i = f 0%:x + f 1%:x + f 2%:x.
Proof.
rewrite !big_ord_recl big_ord0 addr0 addrA.
by congr (f _ + f _ + f _); apply: val_inj.
Qed.

(** ** The Voigt inverse *)

Lemma invmx_uniq (A B : 'M[R]_6) : A *m B = 1%:M -> invmx A = B.
Proof.
move=> AB; have [uA _] := mulmx1_unit AB.
by rewrite -[LHS]mulmx1 -AB mulKmx.
Qed.

Lemma W66E (i j : 'I_6) :
  W66 R i j = if i == j then (if (i < 3)%N then 1 else 2^-1) else 0.
Proof.
rewrite /W66 assignE !mxE.
by case: i => [[|[|[|[|[|[|i]]]]]] Hi] //; case: j => [[|[|[|[|[|[|j]]]]]] Hj].
Qed.

Lemma V66E (i j : 'I_6) :
  V66 R i j = if i == j then (if (i < 3)%N then 1 else 2) else 0.
Proof.
rewrite /V66 assignE !mxE.
by case: i => [[|[|[|[|[|[|i]]]]]] Hi] //; case: j => [[|[|[|[|[|[|j]]]]]] Hj].
Qed.

Lemma W66_diag : W66 R = diag_mx (\row_i (if (i < 3)%N then 1 else 2^-1)).
Proof.
apply/matrixP => i j; rewrite W66E !mxE.
by case: eqP => // _; rewrite ?mulr1n ?mulr0n.
Qed.

Lemma V66_diag : V66 R = diag_mx (\row_i (if (i < 3)%N then 1 else 2)).
Proof.
apply/matrixP => i j; rewrite V66E !mxE.
by case: eqP => // _; rewrite ?mulr1n ?mulr0n.
Qed.

Lemma W66V : W66 R *m V66 R = 1%:M.
Proof.
rewrite W66_diag V66_diag mulmx_diag.
apply/matrixP => i j; rewrite !mxE.
case: eqP => // _; rewrite ?mulr1n ?mulr0n //.
by case: ifP => _; rewrite ?mulr1 // mulVf // pnatr_eq0.
Qed.

Lemma VW66 : V66 R *m W66 R = 1%:M.
Proof. exact: mulmx1C W66V. Qed.

Lemma W66_unit : W66 R \in unitmx.
Proof. by have [] := mulmx1_unit W66V. Qed.

Lemma inverse66_Ok M S :
  inverse66 M = Ok S -> M \in unitmx /\ S = W66 R *m invmx M *m W66 R.
Proof. by rewrite /inverse66; case: ifP => // uM [<-]. Qed.

Lemma inverse66_twice M :
  M \in unitmx ->
  inverse66 (W66 R *m invmx M *m W66 R) = Ok M.
Proof.
move=> uM.
have invS : invmx (W66 R *m invmx M *m W66 R) = V66 R *m M *m V66 R.
  apply: invmx_uniq.
  rewrite -!mulmxA (mulmxA (W66 R) (V66 R)) W66V mul1mx.
  by rewrite (mulmxA (invmx M)) mulVmx // mul1mx W66V.
rewrite /inverse66 !unitmx_mul unitmx_inv uM W66_unit /= invS.
by rewrite !mulmxA W66V mul1mx -mulmxA VW66 mulmx1.
Qed.

(** ** Arrays with the isotropic pattern *)

Lemma iso3_mul (a b g a' b' g' : R) :
  iso3 a b g *m iso3 a' b' g' =
  iso3 (a * a' + 2 * (b * b')) (a * b' + b * a' + b * b') (g * g').
Proof.
apply/matrixP => i j; rewrite !mxE !big_ord_recl big_ord0 !mxE.
case: i => [[|[|[|[|[|[|i]]]]]] Hi] //; case: j => [[|[|[|[|[|[|j]]]]]] Hj] //;
  rewrite /= -?val_eqE /=; ring.
Qed.

Lemma iso3_1 : iso3 1 0 1 = 1%:M :> 'M[R]_6.
Proof.
apply/matrixP => i j; rewrite !mxE.
by case: i => [[|[|[|[|[|[|i]]]]]] Hi] //; case: j => [[|[|[|[|[|[|j]]]]]] Hj].
Qed.

Lemma iso3_0 : iso3 0 0 0 = 0 :> 'M[R]_6.
Proof.
apply/matrixP => i j; rewrite !mxE.
by case: i => [[|[|[|[|[|[|i]]]]]] Hi] //; case: j => [[|[|[|[|[|[|j]]]]]] Hj].
Qed.

Lemma unit_kernel (K M : 'M[R]_6) : M \in unitmx -> K *m M = 0 -> K = 0.
Proof. by move=> uM KM; rewrite -[K](mulmxK uM) KM mul0mx. Qed.

Lemma iso3_unit (a b g : R) :
  iso3 a b g \in unitmx -> [/\ a - b != 0, a + 2 * b != 0 & g != 0].
Proof.
move=> uM; split; apply/eqP => h.
- have /(unit_kernel uM)/matrixP/(_ 0%:o 0%:o) :
    iso3 2 (-1) 0 *m iso3 a b g = 0.
    by rewrite iso3_mul -iso3_0; congr iso3; lra.
  by rewrite !mxE /= => /eqP; rewrite pnatr_eq0.
- have /(unit_kernel uM)/matrixP/(_ 0%:o 0%:o) :
    iso3 1 1 0 *m iso3 a b g = 0.
    by rewrite iso3_mul -iso3_0; congr iso3; lra.
  by rewrite !mxE /= => /eqP; rewrite oner_eq0.
- have /(unit_kernel uM)/matrixP/(_ 3%:o 3%:o) :
    iso3 0 0 1 *m iso3 a b g = 0.
    by rewrite iso3_mul -iso3_0; congr iso3; lra.
  by rewrite !mxE /= => /eqP; rewrite oner_eq0.
Qed.

Lemma iso3_mulV (a b g : R) :
  a - b != 0 -> a + 2 * b != 0 -> g != 0 ->
  iso3 a b g *m
  iso3 ((a + b) / ((a - b) * (a + 2 * b))) (- b / ((a - b) * (a + 2 * b)))
       g^-1 = 1%:M.
Proof.
move=> ab a2b g0; rewrite iso3_mul -iso3_1.
by congr iso3; field; rewrite ?ab ?a2b ?g0.
Qed.

Lemma rules_isotropic_iso3 k :
  rules_isotropic k (const_mx 0) =
  iso3 (c11 k) (c12 k) (2^-1 * (c11 k - c12 k)).
Proof. by apply/matrixP => i j; rewrite rules_isotropicE mxE. Qed.

Lemma W66_iso3 : W66 R = iso3 1 0 2^-1.
Proof.
apply/matrixP => i j; rewrite W66E mxE.
by case: eqP => // _; case: ifP.
Qed.

(** ** The contraction of an isotropic compliance *)

Lemma contraction_iso3 (P Q G p : R) d :
  Q + 2 * G = P -> P = p ->
  contraction (C66toC3333 (iso3 P Q G)) d = p * norm2 d ^+ 2.
Proof.
move=> <- <-; rewrite /contraction /norm2.
have := @C66toC3333E (iso3 (Q + 2 * G) Q G).
move: (C66toC3333 _) => T TE.
rewrite !sum3 !TE !mxE /=; ring.
Qed.

Lemma contraction_isotropic k C S d :
  C66fromSymmetry k (Some "isotropic"%string) = Ok C ->
  inverse66 C = Ok S ->
  contraction (C66toC3333 S) d =
  (c11 k + c12 k) / ((c11 k - c12 k) * (c11 k + 2 * c12 k)) * norm2 d ^+ 2.
Proof.
rewrite C66_isotropic => -[<-] /inverse66_Ok[uC ->].
move: uC; rewrite rules_isotropic_iso3 => uC.
have [ab a2b g0] := iso3_unit uC.
rewrite (invmx_uniq (iso3_mulV ab a2b g0)) W66_iso3 !iso3_mul.
by apply: contraction_iso3; field; rewrite ab a2b.
Qed.

End VoigtTheory.

(** * The tensor functions: main results *)

(** Reads one entry of the built matrix, block after block from the
    last one run. *)
Ltac entry :=
  rewrite ?rules_triclinicE /= ?rules_monoclinicE /= ?rules_orthorhombicE /=
          ?rules_hexagonalE /= ?rules_tetragonalE /= ?assignE /=
          ?rules_isotropicE /=.

(** Rewrites with the constants that are absent, zero or negative. *)
Ltac absent :=
  repeat match goal with H : provided _ = false |- _ => rewrite !H; clear H
                       | H : (0 < _) = false |- _ => rewrite !H; clear H end.

(** Introduces one premise of a slot: a test on the class, or a constant
    that fails the defaulting predicate. *)
Ltac premise :=
  match goal with
  | |- is_true false -> _ => by []
  | |- is_true (~~ true) -> _ => by []
  | |- is_true true -> _ => move=> _
  | |- is_true (~~ false) -> _ => move=> _
  | |- is_true (~~ _) -> _ => move=> /negbTE ?
  end.

Ltac conjunct :=
  match goal with
  | |- _ /\ _ => split
  | |- and3 _ _ _ => split
  | |- and4 _ _ _ _ => split
  | |- and5 _ _ _ _ _ => split
  end.

Ltac slots := repeat (conjunct || premise); entry; absent; rewrite //.


Section TensorResults.

Variable R : realFieldType.

Implicit Types (C M S : 'M[R]_6) (k : constants R) (s : option string).

(** C7.  For symmetry ['isotropic'] and any constants the built matrix has
    [c11] on the first three diagonal places, [0.5 (c11 - c12)] on the
    last three, [c12] on the six off-diagonal places of the upper left 3x3
    block, and zero everywhere else. *)
Theorem C66fromSymmetry_isotropic k :
  exists2 M, C66fromSymmetry k (Some "isotropic"%string) = Ok M &
    forall i j : 'I_6,
      M i j =
      if i == j then (if (i < 3)%N then c11 k else 2^-1 * (c11 k - c12 k))
      else if (i < 3)%N && (j < 3)%N then c12 k else 0.
Proof.
exists (rules_isotropic k (const_mx 0)); first exact: C66_isotropic.
exact: rules_isotropicE.
Qed.

(** C10.  With a symmetry argument that is none of the seven class names
    ([None] or any other string), [C66fromSymmetry] raises nothing and
    returns the all-zero 6x6 matrix, whatever the constants are. *)
Theorem C66fromSymmetry_unrecognized k s :
  ~~ py_in s [:: "isotropic"; "cubic"; "tetragonal"; "hexagonal";
                 "orthorhombic"; "monoclinic"; "triclinic"]%string ->
  C66fromSymmetry k s = Ok (const_mx 0).
Proof. by move/negbTE; exact: C66_unrecognized. Qed.

(** C5.  Whenever a matrix [M] is built, for any symmetry argument (so for
    each of the seven classes) and any constants: [M i j = M j i] at every
    pair of places other than (0,5)/(5,0); there [M[5,0] = - M[0,5]], with
    [M[0,5] = c16] when the class is tetragonal or above and [c16] is
    provided and positive, and [M[0,5] = 0] otherwise. *)
Theorem C66fromSymmetry_symmetric k s M :
  C66fromSymmetry k s = Ok M ->
  [/\ forall i j : 'I_6,
        (i, j) != (0%:o, 5%:o) -> (i, j) != (5%:o, 0%:o) -> M i j = M j i,
      M 5%:o 0%:o = - M 0%:o 5%:o
    & M 0%:o 5%:o =
      if py_in s [:: "tetragonal"; "hexagonal";
                     "orthorhombic"; "monoclinic"; "triclinic"]%string
         && provided (c16 k)
      then the (c16 k) else 0].
Proof.
move=> eqM; have [sM aM] := C66_sym eqM.
by split=> //; exact: C66_c16 eqM.
Qed.

(** C6.  A supplied constant that is zero or negative is ignored and the
    already-computed default is used in its place, in every slot governed
    by the defaulting predicate.  The result is the one obtained with the
    default [0.0] in place of the constant, for every symmetry argument.
    For ['cubic'] with [c44 <= 0] the output keeps
    [C[3,3] = C[4,4] = C[5,5] = 0.5 (c11 - c12)].  And whenever a matrix
    [M] is built, a constant that fails the predicate (absent, zero or
    negative) leaves its slot with the default of the source, slot by
    slot: [0.5 (c11 - c12)] for [c44]; [C[0,0] = c11] for [c33] and
    [c22]; [C[3,3]], the value [v44] left by the cubic block, for [c66]
    and [c55] (for ['hexagonal'] the later assignment of
    [0.5 (c11 - c12)] to [C[5,5]] prevails); [C[0,2] = c12] for [c13];
    the previous [C[1,2]], the value [v13] left by the tetragonal block,
    for [c23]; and [0.0] for [c16], [c26], [c36], [c45] and the eight
    constants of the triclinic block. *)
Theorem C66fromSymmetry_ignores_nonpositive k :
  [/\ forall s, C66fromSymmetry (ignore_nonpos k) s = C66fromSymmetry k s,
      forall x, c44 k = Some x -> x <= 0 ->
        exists M, [/\ C66fromSymmetry k (Some "cubic"%string) = Ok M,
          M 3%:o 3%:o = 2^-1 * (c11 k - c12 k),
          M 4%:o 4%:o = 2^-1 * (c11 k - c12 k) &
          M 5%:o 5%:o = 2^-1 * (c11 k - c12 k)]
    & forall s M, C66fromSymmetry k s = Ok M ->
      let g := 2^-1 * (c11 k - c12 k) in
      let v44 := if provided (c44 k) then the (c44 k) else g in
      let v13 := if provided (c13 k) then the (c13 k) else c12 k in
      let cubic_up :=
        py_in s [:: "cubic"; "tetragonal"; "hexagonal";
                    "orthorhombic"; "monoclinic"; "triclinic"]%string in
      let tetragonal_up :=
        py_in s [:: "tetragonal"; "hexagonal";
                    "orthorhombic"; "monoclinic"; "triclinic"]%string in
      let orthorhombic_up :=
        py_in s [:: "orthorhombic"; "monoclinic"; "triclinic"]%string in
      let monoclinic_up := py_in s [:: "monoclinic"; "triclinic"]%string in
      let hexagonal := py_in s [:: "hexagonal"]%string in
      [/\ cubic_up -> ~~ provided (c44 k) ->
            [/\ M 3%:o 3%:o = g,
                ~~ orthorhombic_up -> M 4%:o 4%:o = g
              & ~~ tetragonal_up -> M 5%:o 5%:o = g],
          tetragonal_up ->
            [/\ ~~ provided (c33 k) -> M 2%:o 2%:o = c11 k,
                ~~ provided (c66 k) ->
                  M 5%:o 5%:o = (if hexagonal then g else v44),
                ~~ provided (c13 k) ->
                  [/\ M 0%:o 2%:o = c12 k, M 2%:o 0%:o = c12 k
                    & ~~ orthorhombic_up ->
                      M 1%:o 2%:o = c12 k /\ M 2%:o 1%:o = c12 k]
              & ~~ provided (c16 k) -> M 0%:o 5%:o = 0 /\ M 5%:o 0%:o = 0],
          orthorhombic_up ->
            [/\ ~~ provided (c22 k) -> M 1%:o 1%:o = c11 k,
                ~~ provided (c55 k) -> M 4%:o 4%:o = v44
              & ~~ provided (c23 k) ->
                  M 1%:o 2%:o = v13 /\ M 2%:o 1%:o = v13],
          monoclinic_up ->
            [/\ ~~ provided (c26 k) -> M 1%:o 5%:o = 0 /\ M 5%:o 1%:o = 0,
                ~~ provided (c36 k) -> M 2%:o 5%:o = 0 /\ M 5%:o 2%:o = 0
              & ~~ provided (c45 k) -> M 3%:o 4%:o = 0 /\ M 4%:o 3%:o = 0]
        & py_in s [:: "triclinic"]%string ->
            [/\ ~~ provided (c14 k) -> M 0%:o 3%:o = 0 /\ M 3%:o 0%:o = 0,
                ~~ provided (c15 k) -> M 0%:o 4%:o = 0 /\ M 4%:o 0%:o = 0,
                ~~ provided (c24 k) -> M 1%:o 3%:o = 0 /\ M 3%:o 1%:o = 0,
                ~~ provided (c25 k) -> M 1%:o 4%:o = 0 /\ M 4%:o 1%:o = 0
              & [/\ ~~ provided (c34 k) ->
                      M 2%:o 3%:o = 0 /\ M 3%:o 2%:o = 0,
                    ~~ provided (c35 k) ->
                      M 2%:o 4%:o = 0 /\ M 4%:o 2%:o = 0,
                    ~~ provided (c46 k) ->
                      M 3%:o 5%:o = 0 /\ M 5%:o 3%:o = 0
                  & ~~ provided (c56 k) ->
                      M 4%:o 5%:o = 0 /\ M 5%:o 4%:o = 0]]]].
Proof.
split; first by move=> s; exact: C66_ignore_nonpos.
  by move=> x; exact: C66_cubic_default.
move=> s M eqM; cbv zeta.
case: classP eqM => [|es|es|es|es|es|es|es]; rewrite ?es => eqM.
- by split.
- by split.
- move: eqM; rewrite C66_cubic /rules_cubic /gt0 /bind.
  case: (c44 k) => [x|] // [<-]; rewrite provided_Some.
  by slots.
- move: eqM; rewrite C66_tetragonal /rules_cubic /gt0 /bind.
  case: (c44 k) => [x|] // [<-]; rewrite provided_Some.
  by slots.
- move: eqM; rewrite C66_hexagonal /rules_cubic /gt0 /bind.
  case: (c44 k) => [x|] // [<-]; rewrite provided_Some.
  by slots.
- move: eqM; rewrite C66_orthorhombic /rules_cubic /gt0 /bind.
  case: (c44 k) => [x|] // [<-]; rewrite provided_Some.
  by slots.
- move: eqM; rewrite C66_monoclinic /rules_cubic /gt0 /bind.
  case: (c44 k) => [x|] // [<-]; rewrite provided_Some.
  by slots.
- move: eqM; rewrite C66_triclinic /rules_cubic /gt0 /bind.
  case: (c44 k) => [x|] // [<-]; rewrite provided_Some.
  by slots.
Qed.

(** C4.  For every 6x6 matrix, symmetric or not, and all indices, the
    expanded tensor [T = C66toC3333 M] satisfies
    [T[i,j,k,l] = T[i,j,l,k] = T[j,i,k,l] = T[j,i,l,k]]. *)
Theorem C66toC3333_minor_symmetry M (i j p q : 'I_3) :
  let T := C66toC3333 M in
  [/\ T i j p q = T i j q p, T i j p q = T j i p q & T i j p q = T j i q p].
Proof. by rewrite /= !C66toC3333E (voigtC j i) (voigtC q p). Qed.

(** C3.  For every invertible 6x6 matrix [M], [inverse66 M] returns
    [W M^-1 W] with [W = diag(1,1,1,0.5,0.5,0.5)], and applying
    [inverse66] to that result returns [M]. *)
Theorem inverse66_involutive M :
  M \in unitmx ->
  let W := diag_mx (\row_(i < 6) (if (i < 3)%N then 1 else 2^-1)) in
  exists S, [/\ inverse66 M = Ok S, S = W *m invmx M *m W
                & inverse66 S = Ok M].
Proof.
move=> uM /=; exists (W66 R *m invmx M *m W66 R).
by rewrite -W66_diag inverse66_twice // /inverse66 uM.
Qed.

(** C2.  For a stiffness matrix built with symmetry ['isotropic'] whose
    Voigt inverse exists, the directional modulus on the expanded
    compliance takes the same value on all unit directions; so does the
    contraction it is the reciprocal of. *)
Theorem E_hkl3333_isotropic_constant k C S (d1 d2 : 'rV[R]_3) :
  C66fromSymmetry k (Some "isotropic"%string) = Ok C ->
  inverse66 C = Ok S ->
  norm2 d1 = 1 -> norm2 d2 = 1 ->
  contraction (C66toC3333 S) d1 = contraction (C66toC3333 S) d2 /\
  E_hkl3333 (C66toC3333 S) d1 = E_hkl3333 (C66toC3333 S) d2.
Proof.
move=> eqC eqS n1 n2.
have e : contraction (C66toC3333 S) d1 = contraction (C66toC3333 S) d2.
  by rewrite !(contraction_isotropic _ eqC eqS) n1 n2.
by rewrite /E_hkl3333 e.
Qed.

End TensorResults.

(** ** The results on the example inputs *)

Lemma norm2_vec3 (R : realFieldType) (x y z : R) :
  norm2 (vec3 x y z) = x ^+ 2 + y ^+ 2 + z ^+ 2.
Proof. by rewrite /norm2 sum3 !mxE. Qed.

Lemma example_isotropic_inverse :
  let C := rules_isotropic example_isotropic (const_mx 0) in
  inverse66 C = Ok (W66 rat *m invmx C *m W66 rat).
Proof.
rewrite /= /inverse66 rules_isotropic_iso3.
have [-> //] := mulmx1_unit (@iso3_mulV rat 200 100 (2^-1 * (200 - 100))
                               isT isT isT).
Qed.

Lemma C66fromSymmetry_unrecognized_witness :
  ~~ py_in (Some "trigonal"%string)
       [:: "isotropic"; "cubic"; "tetragonal"; "hexagonal";
           "orthorhombic"; "monoclinic"; "triclinic"]%string /\
  C66fromSymmetry example_tetragonal (Some "trigonal"%string)
  = Ok (const_mx 0).
Proof.
split; first by vm_compute.
by apply: C66fromSymmetry_unrecognized; vm_compute.
Defined.

Lemma example_tetragonal_Ok :
  C66fromSymmetry example_tetragonal (Some "tetragonal"%string) =
  Ok (rules_tetragonal example_tetragonal
        (assign [:: (3%:o, 3%:o); (4%:o, 4%:o); (5%:o, 5%:o)] 80
           (rules_isotropic example_tetragonal (const_mx 0)))).
Proof. by rewrite C66_tetragonal. Qed.

Lemma C66fromSymmetry_symmetric_witness :
  let M := rules_tetragonal example_tetragonal
        (assign [:: (3%:o, 3%:o); (4%:o, 4%:o); (5%:o, 5%:o)] 80
           (rules_isotropic example_tetragonal (const_mx 0))) in
  C66fromSymmetry example_tetragonal (Some "tetragonal"%string) = Ok M /\
  [/\ forall i j : 'I_6,
        (i, j) != (0%:o, 5%:o) -> (i, j) != (5%:o, 0%:o) -> M i j = M j i,
      M 5%:o 0%:o = - M 0%:o 5%:o
    & M 0%:o 5%:o = 5].
Proof.
move=> M; split; first exact: example_tetragonal_Ok.
by have [h1 h2 h3] := C66fromSymmetry_symmetric example_tetragonal_Ok.
Defined.

Lemma C66fromSymmetry_ignores_nonpositive_witness :
  (c44 example_cubic = Some (-5) /\ (-5 : rat) <= 0 /\
   exists M, [/\ C66fromSymmetry example_cubic (Some "cubic"%string) = Ok M,
        M 3%:o 3%:o = 2^-1 * (200 - 100),
        M 4%:o 4%:o = 2^-1 * (200 - 100) &
        M 5%:o 5%:o = 2^-1 * (200 - 100)]) /\
  (let M := rules_tetragonal example_tetragonal
        (assign [:: (3%:o, 3%:o); (4%:o, 4%:o); (5%:o, 5%:o)] 80
           (rules_isotropic example_tetragonal (const_mx 0))) in
   [/\ C66fromSymmetry example_tetragonal (Some "tetragonal"%string) = Ok M,
       ~~ provided (c33 example_tetragonal),
       ~~ provided (c66 example_tetragonal),
       M 2%:o 2%:o = 200 & M 5%:o 5%:o = 80]).
Proof.
have le50 : (-5 : rat) <= 0 by lra.
have k44 : c44 example_cubic = Some (-5) by [].
have n33 : ~~ provided (c33 example_tetragonal) by vm_compute.
have n66 : ~~ provided (c66 example_tetragonal) by vm_compute.
have v44 : (if py_in (Some "tetragonal"%string) [:: "hexagonal"%string]
            then 2^-1 * (c11 example_tetragonal - c12 example_tetragonal)
            else if provided (c44 example_tetragonal)
                 then the (c44 example_tetragonal)
                 else 2^-1 * (c11 example_tetragonal
                              - c12 example_tetragonal)) = 80 :> rat.
  by [].
have [_ hc _] := C66fromSymmetry_ignores_nonpositive example_cubic.
have [_ _ ht] := C66fromSymmetry_ignores_nonpositive example_tetragonal.
have [_ h2 _ _ _] := ht _ _ example_tetragonal_Ok.
have [h33 h66 _ _] := h2 isT.
split.
  split; first exact: k44.
  split; first exact: le50.
  exact: (hc (-5) k44 le50).
move=> M; split.
- exact: example_tetragonal_Ok.
- exact: n33.
- exact: n66.
- exact: (h33 n33).
- exact: (etrans (h66 n66) v44).
Defined.

Lemma inverse66_involutive_witness :
  (1%:M : 'M[rat]_6) \in unitmx /\
  exists S : 'M[rat]_6,
    [/\ inverse66 1%:M = Ok S,
        S = diag_mx (\row_(i < 6) (if (i < 3)%N then 1 else 2^-1))
            *m invmx 1%:M
            *m diag_mx (\row_(i < 6) (if (i < 3)%N then 1 else 2^-1))
      & inverse66 S = Ok 1%:M].
Proof.
split; first exact: unitmx1.
exact: (inverse66_involutive (unitmx1 _ _)).
Defined.

Lemma E_hkl3333_isotropic_constant_witness :
  let C := rules_isotropic example_isotropic (const_mx 0) in
  let S := W66 rat *m invmx C *m W66 rat in
  [/\ C66fromSymmetry example_isotropic (Some "isotropic"%string) = Ok C,
      inverse66 C = Ok S,
      norm2 (vec3 (1 : rat) 0 0) = 1 & norm2 (vec3 (0 : rat) 0 1) = 1] /\
  (contraction (C66toC3333 S) (vec3 1 0 0)
   = contraction (C66toC3333 S) (vec3 0 0 1) /\
   E_hkl3333 (C66toC3333 S) (vec3 1 0 0)
   = E_hkl3333 (C66toC3333 S) (vec3 0 0 1)).
Proof.
move=> C S.
have hC := C66_isotropic example_isotropic.
have hS := example_isotropic_inverse.
have n1 : norm2 (vec3 (1 : rat) 0 0) = 1 by rewrite norm2_vec3.
have n2 : norm2 (vec3 (0 : rat) 0 1) = 1 by rewrite norm2_vec3.
split; first by split.
exact: (E_hkl3333_isotropic_constant hC hS n1 n2).
Defined.

(** * The sphere: lemmas *)

Local Open Scope nat_scope.

(** ** Sequences *)

Section SeqLemmas.
Variable T : Type.
Implicit Types (s : seq T) (A : seq (seq T)).

Lemma prefix_rowE (x m : nat) :
  [seq (b <= x)%N | b <- iota 0 m] =
  nseq (minn x.+1 m) true ++ nseq (m - x.+1) false.
Proof.
have [le_xm|lt_mx] := leqP x.+1 m.
  rewrite -{1}(subnKC le_xm) iotaD map_cat add0n.
  congr (_ ++ _).
    apply: (@eq_from_nth _ false); rewrite ?size_map ?size_iota ?size_nseq //.
    by move=> i lt_i; rewrite (nth_map 0%N) ?size_iota // nth_iota // nth_nseq lt_i add0n -ltnS.
  apply: (@eq_from_nth _ false); rewrite ?size_map ?size_iota ?size_nseq //.
  move=> i lt_i; rewrite (nth_map 0%N) ?size_iota // nth_iota // nth_nseq lt_i.
  by rewrite leqNgt ltnS leq_addr.
rewrite (eqP (ltnW lt_mx : m - x.+1 == 0)%N) cats0.
apply: (@eq_from_nth _ false); rewrite ?size_map ?size_iota ?size_nseq //.
move=> i lt_i; rewrite (nth_map 0%N) ?size_iota // nth_iota // nth_nseq lt_i add0n.
by rewrite -ltnS (ltn_trans _ lt_mx) // ltnS ltnW.
Qed.

Lemma mask_prefix_row (x : nat) s :
  mask [seq (b <= x)%N | b <- iota 0 (size s)] s = take x.+1 s.
Proof.
rewrite prefix_rowE -{3}(cat_take_drop x.+1 s) mask_cat ?size_nseq ?size_take_min //.
by rewrite mask_true ?size_take_min // mask_false cats0.
Qed.

Lemma bool_index_prefix A (x : nat -> nat) m k :
  all (fun row => size row == m) A ->
  bool_index A [seq [seq (b <= x a)%N | b <- iota 0 m] | a <- iota k (size A)]
  = flatten [seq take (x p.1).+1 p.2 | p <- zip (iota k (size A)) A].
Proof.
rewrite /bool_index; elim: A k => [|row A IH] k //= /andP[/eqP szr hA].
by rewrite -szr mask_prefix_row szr IH.
Qed.

Lemma all_mask (P : pred T) m s : all P s -> all P (mask m s).
Proof.
elim: m s => [|b m IH] [|y s] //= /andP[Py Ps].
by case: b; rewrite /= ?Py IH.
Qed.

Lemma all_bool_index (P : pred T) A m :
  all (all P) A -> all P (bool_index A m).
Proof.
rewrite /bool_index; elim: A m => [|row A IH] [|r m] //= /andP[Pr PA].
by rewrite all_cat all_mask // IH.
Qed.

Lemma evens_map_iota (f : nat -> T) k m :
  evens [seq f a | a <- iota k m.*2] = [seq f (k + a.*2) | a <- iota 0 m].
Proof.
elim: m k => [|m IH] k //=.
rewrite double0 addn0 IH; congr (_ :: _).
rewrite (iotaDl 1 0 m) -map_comp.
by apply: eq_map => a /=; rewrite add1n doubleS !addnS.
Qed.

End SeqLemmas.

Lemma sumn_succ n : (sumn [seq a.+1 | a <- iota 0 n]).*2 = (n * n.+1)%N.
Proof.
elim: n => [|n IH] //.
rewrite -[in LHS]addn1 iotaD map_cat sumn_cat doubleD IH /= addn0 add0n.
by rewrite mulSn mulnS -addnn -!plusE -!multE; lia.
Qed.

Lemma sumn_odd n : sumn [seq (a.*2).+1 | a <- iota 0 n] = (n ^ 2)%N.
Proof.
elim: n => [|n IH] //.
rewrite -[in LHS]addn1 iotaD map_cat sumn_cat IH /= addn0 add0n.
by rewrite -!mulnn -!addnn -!plusE -!multE; lia.
Qed.


Section ZipLemmas.
Variables (T U : Type).

Lemma all_rot1 (P : pred T) (s : seq T) : all P (rot 1 s) = all P s.
Proof. by rewrite /rot all_cat andbC -all_cat cat_take_drop. Qed.

Lemma all_flattenE (P : pred T) (ss : seq (seq T)) :
  all P (flatten ss) = all (all P) ss.
Proof. by elim: ss => //= s ss <-; rewrite all_cat. Qed.

Lemma all_zip (PA : pred T) (PB : pred U) (A : seq T) (B : seq U) :
  all PA A -> all PB B -> all (fun p => PA p.1 && PB p.2) (zip A B).
Proof.
elim: A B => [|a A IH] [|b B] //= /andP[-> hA] /andP[-> hB] /=.
exact: IH.
Qed.

Lemma size_flatten_take (A : seq (seq T)) (x : nat -> nat) m k :
  all (fun row => size row == m) A ->
  (forall a, k <= a < k + size A -> x a < m) ->
  size (flatten [seq take (x p.1).+1 p.2 | p <- zip (iota k (size A)) A])
  = sumn [seq (x a).+1 | a <- iota k (size A)].
Proof.
elim: A k => [|row A IH] k //= /andP[/eqP szr hA] hx.
have xk : x k < m by apply: hx; rewrite leqnn /= addnS ltnS leq_addr.
rewrite size_cat size_take_min szr (minn_idPl xk) IH // => a /andP[ka lt_a].
by apply: hx; rewrite (ltnW ka) /= addnS -addSn.
Qed.

End ZipLemmas.

Section Shapes.
Variable T : Type.
Implicit Types (A B C : seq (seq T)).

Lemma rows_of_roll0 m A : rows_of m A -> rows_of m (roll0 A).
Proof. by rewrite /rows_of /roll0 all_rot1. Qed.

Lemma rows_of_roll1 m A : rows_of m A -> rows_of m (roll1 A).
Proof.
rewrite /rows_of /roll1 all_map; apply: sub_all => row /=.
by rewrite size_rot.
Qed.

Lemma rows_of_stack3 m A B C :
  rows_of m A -> rows_of m B -> rows_of m C -> rows_of m (stack3 A B C).
Proof.
move=> hA hB hC; rewrite /rows_of /stack3 all_map.
apply: sub_all (all_zip (all_zip hA hB) hC) => -[[a b] c] /=.
rewrite /zip3 size_map !size_zip => /andP[/andP[/eqP-> /eqP->] /eqP->].
by rewrite !minnn.
Qed.

Lemma size_stack3 A B C :
  size (stack3 A B C) = minn (minn (size A) (size B)) (size C).
Proof. by rewrite /stack3 size_map !size_zip. Qed.

Lemma size_interleave (u d : seq T) :
  size (interleave u d) = (minn (size u) (size d)).*2.
Proof.
rewrite /interleave size_flatten /shape -map_comp -size_zip.
by elim: (zip u d) => //= p s ->.
Qed.

End Shapes.

Lemma rows_of_triangle_rows m c :
  rows_of m c -> rows_of m.*2 (triangle_rows c).
Proof.
move=> hc; rewrite /rows_of /triangle_rows all_map.
have h0 := rows_of_roll0 hc; have h1 := rows_of_roll1 hc.
have h10 := rows_of_roll1 h0.
have hu := rows_of_stack3 hc h0 h10; have hd := rows_of_stack3 hc h10 h1.
apply: sub_all (all_zip hu hd) => -[u d] /= /andP[/eqP su /eqP sd].
by rewrite size_interleave su sd minnn.
Qed.

Lemma size_triangle_rows c : size (triangle_rows c) = size c.
Proof.
rewrite /triangle_rows size_map size_zip !size_stack3 /roll0 /roll1.
by rewrite !size_map !size_rot !minnn.
Qed.

Lemma tril_onesE n :
  tril_ones n = [seq [seq (b <= a) | b <- iota 0 n] | a <- iota 0 n].
Proof. by []. Qed.

Lemma size_add_column A col : size (add_column A col) = minn (size A) (size col).
Proof. by rewrite /add_column size_map size_zip. Qed.

Lemma rows_of_add_column m A col : rows_of m A -> rows_of m (add_column A col).
Proof.
rewrite /rows_of /add_column all_map => hA.
have := all_zip hA (all_predT col); apply: sub_all => -[row x] /=.
by rewrite size_map andbT.
Qed.

Lemma rows_of_nseq (T : Type) m r (row : seq T) :
  size row = m -> rows_of m (nseq r row).
Proof. by move=> <-; rewrite /rows_of all_nseq eqxx orbT. Qed.

Lemma slice_tril n :
  slice_to_m2_step2 (tril_ones n.*2) =
  [seq [seq (b <= a.*2) | b <- iota 0 n.*2] | a <- iota 0 n.-1].
Proof.
rewrite /slice_to_m2_step2 tril_onesE size_map size_iota -map_take take_iota.
have -> : minn (n.*2 - 2) n.*2 = n.-1.*2.
  by rewrite (minn_idPl (leq_subr _ _)); case: n => // n; rewrite doubleS !subSS subn0.
by rewrite evens_map_iota.
Qed.

Section SizesOfSierpinsky.
Variable R : rcfType.

Lemma Sierpinsky2_size N : size (Sierpinsky R N).2 = ((2 ^ N) ^ 2)%N.
Proof.
rewrite /Sierpinsky /meshgrid_ij /arange size_iota.
cbv beta iota zeta delta [snd]; rewrite add1n.
set n := (2 ^ N).+1.
set c := add_column _ _.
have szc : size c = n by rewrite size_add_column size_nseq size_scanl size_iota minnn.
have hc : rows_of n c by apply/rows_of_add_column/rows_of_nseq; rewrite size_iota.
rewrite mul2n slice_tril.
set A := drop_last _.
have szA : size A = n.-1.
  by rewrite /A /drop_last size_take_min size_triangle_rows szc (minn_idPl (leq_pred _)).
have hA : rows_of n.*2 A.
  have := rows_of_triangle_rows hc; rewrite /A /drop_last /rows_of.
  by rewrite -{1}(cat_take_drop (size (triangle_rows c)).-1 (triangle_rows c)) all_cat => /andP[].
rewrite -szA bool_index_prefix // (@size_flatten_take _ _ _ n.*2) //.
  by move=> a /andP[_]; rewrite add0n szA /n /= ltn_double => /ltnW.
by rewrite szA sumn_odd.
Qed.

End SizesOfSierpinsky.

(** ** The lattice of a face *)

Lemma nseq_map_iota (T : Type) (x : T) n k : nseq n x = [seq x | _ <- iota k n].
Proof. by elim: n k => //= n IH k; rewrite -IH. Qed.

Lemma zip_nseq (T U : Type) (x : T) (s : seq U) :
  zip (nseq (size s) x) s = [seq (x, y) | y <- s].
Proof. by elim: s => //= y s ->. Qed.

Lemma zip_flatten_same (T U : Type) (ss : seq (seq T)) (tt : seq (seq U)) :
  shape ss = shape tt ->
  zip (flatten ss) (flatten tt) = flatten [seq zip p.1 p.2 | p <- zip ss tt].
Proof.
elim: ss tt => [|s ss IH] [|t tt] //= [sz_st sh].
by rewrite zip_cat // IH.
Qed.

Local Arguments nseq : simpl never.
Local Arguments iota : simpl never.

Lemma i_listE n :
  bool_index [seq nseq n a | a <- iota 0 n] (tril_ones n) =
  flatten [seq nseq a.+1 a | a <- iota 0 n].
Proof.
set A := [seq _ | a <- _].
have szA : size A = n by rewrite size_map size_iota.
have hA : rows_of n A.
  by rewrite /rows_of /A all_map; apply/allP => a _ /=; rewrite size_nseq.
have -> : tril_ones n = [seq [seq b <= id a | b <- iota 0 n] | a <- iota 0 (size A)].
  by rewrite szA.
rewrite (@bool_index_prefix _ A id n 0) // szA /A.
rewrite -{1}[iota 0 n]map_id zip_map -map_comp; congr flatten.
apply/eq_in_map => a; rewrite mem_iota add0n => /andP[_ lt_an] /=.
by rewrite take_nseq.
Qed.

Lemma j_listE n :
  bool_index (nseq n (iota 0 n)) (tril_ones n) =
  flatten [seq iota 0 a.+1 | a <- iota 0 n].
Proof.
set A := nseq _ _.
have szA : size A = n by rewrite size_nseq.
have hA : rows_of n A by apply: rows_of_nseq; rewrite size_iota.
have -> : tril_ones n = [seq [seq b <= id a | b <- iota 0 n] | a <- iota 0 (size A)].
  by rewrite szA.
rewrite (@bool_index_prefix _ A id n 0) // szA /A (nseq_map_iota _ _ 0).
rewrite -{1}[iota 0 n]map_id zip_map -map_comp; congr flatten.
apply/eq_in_map => a; rewrite mem_iota add0n => /andP[_ lt_an] /=.
by rewrite take_iota (minn_idPl lt_an).
Qed.

Lemma zip_ij n :
  zip (bool_index [seq nseq n a | a <- iota 0 n] (tril_ones n))
      (bool_index (nseq n (iota 0 n)) (tril_ones n)) = lattice n.
Proof.
rewrite i_listE j_listE zip_flatten_same.
  rewrite /shape -!map_comp; apply: eq_map => a /=.
  by rewrite size_nseq size_iota.
rewrite /lattice zip_map -map_comp; congr flatten; apply: eq_map => a /=.
by rewrite -[X in nseq X _](size_iota 1 a) zip_nseq.
Qed.

Lemma size_lattice n : size (lattice n) = tri n.
Proof.
rewrite /lattice size_flatten /shape -map_comp /tri -sumn_succ.
rewrite -muln2 mulnK //; congr sumn; apply: eq_map => a /=.
by rewrite size_map size_iota.
Qed.

Lemma triS n : tri n.+1 = tri n + n.+1.
Proof.
rewrite /tri -!sumn_succ -!muln2 !mulnK // -[in LHS]addn1 iotaD map_cat sumn_cat.
by rewrite /= addn0.
Qed.

Lemma latticeS n :
  lattice n.+1 = lattice n ++ [seq (n, b) | b <- iota 0 n.+1].
Proof.
rewrite /lattice -[in LHS]addn1 iotaD map_cat flatten_cat add0n.
have -> : iota n 1 = [:: n] by [].
by rewrite /= cats0.
Qed.

Lemma lattice_index n :
  [seq p.2 + tri p.1 | p <- lattice n] = iota 0 (tri n).
Proof.
elim: n => [|n IH] //.
rewrite latticeS map_cat IH -map_comp triS iotaD add0n; congr (_ ++ _).
rewrite -[tri n in RHS]addn0 iotaDl.
by apply: eq_map => b /=; rewrite addnC.
Qed.

Lemma uniq_lattice n : uniq (lattice n).
Proof.
apply: (@map_uniq _ _ (fun p => p.2 + tri p.1)).
by rewrite lattice_index iota_uniq.
Qed.

Lemma lattice_le n p : p \in lattice n -> p.2 <= p.1 < n.
Proof.
case/allpairsPdep => a [b] []; rewrite !mem_iota !add0n /= ltnS => lt_an le_ba ->.
by rewrite /= le_ba.
Qed.

Lemma zip3_maps (T U : Type) (g : T -> U) (h : T * U -> U) (a : seq T) (b : seq U) :
  zip3 (map g a) (map h (zip a b)) b = [seq (g p.1, h p, p.2) | p <- zip a b].
Proof. by elim: a b => [|x a IH] [|y b] //=; rewrite -IH. Qed.

Section SierpinskyTheory.
Variable R : rcfType.

Lemma Sierpinsky1E N :
  (Sierpinsky R N).1 = [seq weight_of R (2 ^ N).+1 p | p <- lattice (2 ^ N).+1].
Proof.
rewrite /Sierpinsky /meshgrid_ij /arange size_iota.
cbv beta iota zeta delta [fst]; rewrite add1n.
set n := (2 ^ N).+1.
rewrite (@zip3_maps nat nat (fun x => n - 1 - x) (fun p => p.1 - p.2)) zip_ij.
by rewrite -map_comp.
Qed.

Lemma size_weights N : size (Sierpinsky R N).1 = tri (2 ^ N).+1.
Proof. by rewrite Sierpinsky1E size_map size_lattice. Qed.

Lemma vec3_inj (x y z x' y' z' : R) :
  vec3 x y z = vec3 x' y' z' -> [/\ x = x', y = y' & z = z'].
Proof.
move/matrixP => h; split.
- by have := h 0%R 0%:x; rewrite !mxE.
- by have := h 0%R 1%:x; rewrite !mxE.
- by have := h 0%R 2%:x; rewrite !mxE.
Qed.

Lemma weight_of_inj n : 1 < n ->
  {in lattice n &, injective (weight_of R n)}.
Proof.
move=> n1 [a b] [a' b'] /lattice_le/= /andP[le_ba _] /lattice_le/= /andP[le_ba' _].
have m0 : (n - 1)%:R != 0%R :> R by rewrite pnatr_eq0 subn_eq0 -ltnNge.
case/vec3_inj => _ /(divIf m0)/eqP + /(divIf m0)/eqP.
rewrite !eqr_nat /= => /eqP eab /eqP ebb; rewrite -ebb in le_ba' eab *.
by rewrite -(subnK le_ba) eab subnK.
Qed.

Lemma uniq_weights N : uniq (Sierpinsky R N).1.
Proof.
rewrite Sierpinsky1E map_inj_in_uniq ?uniq_lattice //.
by apply: weight_of_inj; rewrite ltnS expn_gt0.
Qed.

End SierpinskyTheory.

Lemma cumsum_iota n : cumsum (iota 0 n) = [seq tri a | a <- iota 0 n].
Proof.
have gen m k : scanl addn (tri m) (iota m.+1 k) = [seq tri a | a <- iota m.+1 k].
  elim: k m => [|k IH] m //.
  by rewrite [iota _ _]/= [scanl _ _ _]/= [map _ _]/= -triS IH.
by case: n => [|n] //; rewrite /cumsum [iota _ _]/= [scanl _ _ _]/= [map _ _]/= addn0 -(gen 0 n).
Qed.

Lemma leq_tri a b : a <= b -> tri a <= tri b.
Proof.
move=> le_ab; rewrite /tri leq_div2r // leq_mul //.
Qed.

Lemma all_add_column_tri n :
  all (all (fun x => x < tri n)) (add_column (nseq n (iota 0 n)) (cumsum (iota 0 n))).
Proof.
case: n => [|n]; first by rewrite /add_column.
rewrite cumsum_iota /add_column (nseq_map_iota _ _ 0) zip_map -map_comp.
apply/allP => row /mapP[a]; rewrite mem_iota add0n ltnS => /andP[_ le_an] ->.
cbv beta iota delta [comp fst snd].
apply/allP => y /mapP[b]; rewrite mem_iota add0n ltnS => /andP[_ le_bn] ->.
have /ssrnat.leP h1 := leq_tri le_an; move/ssrnat.leP: le_bn => h2.
by rewrite triS; apply/ssrnat.ltP; rewrite -!plusE; lia.
Qed.

Section AllTriangles.
Variable p : pred nat.

Lemma all_stack3 (A B C : seq (seq nat)) :
  all (all p) A -> all (all p) B -> all (all p) C ->
  all (all (tri_in p)) (stack3 A B C).
Proof.
move=> hA hB hC; rewrite /stack3 all_map.
apply: sub_all (all_zip (all_zip hA hB) hC) => -[[a b] c] /=.
move=> /andP[/andP[ha hb] hc]; rewrite /zip3 all_map.
by apply: sub_all (all_zip (all_zip ha hb) hc) => -[[x y] z] /=; rewrite /tri_in -andbA.
Qed.

Lemma all_interleave (T : Type) (q : pred T) (u d : seq T) :
  all q u -> all q d -> all q (interleave u d).
Proof.
move=> hu hd; rewrite /interleave all_flattenE all_map.
by apply: sub_all (all_zip hu hd) => -[x y] /=; rewrite andbT.
Qed.

Lemma all_triangle_rows c :
  all (all p) c -> all (all (tri_in p)) (triangle_rows c).
Proof.
move=> hc; rewrite /triangle_rows all_map.
have h0 : all (all p) (roll0 c) by rewrite /roll0 all_rot1.
have r1 A : all (all p) A -> all (all p) (roll1 A).
  by rewrite /roll1 all_map; apply: sub_all => row /=; rewrite all_rot1.
have hu := all_stack3 hc h0 (r1 _ h0); have hd := all_stack3 hc (r1 _ h0) (r1 _ hc).
by apply: sub_all (all_zip hu hd) => -[u d] /= /andP[]; exact: all_interleave.
Qed.

End AllTriangles.

Lemma all_take (T : Type) (q : pred T) k (s : seq T) : all q s -> all q (take k s).
Proof. by rewrite -{1}(cat_take_drop k s) all_cat => /andP[]. Qed.

Section SphereTheory.
Variable R : rcfType.

Lemma Sierpinsky2_bound N :
  all (tri_in (fun x => x < tri (2 ^ N).+1)) (Sierpinsky R N).2.
Proof.
rewrite /Sierpinsky /meshgrid_ij /arange size_iota.
cbv beta iota zeta delta [snd]; rewrite add1n.
apply: all_bool_index; rewrite /drop_last; apply: all_take.
exact/all_triangle_rows/all_add_column_tri.
Qed.

Lemma connectivityE N :
  connectivity R N =
  flatten [seq [seq (size (Sierpinsky R N).1 * f + t.1.1,
                     size (Sierpinsky R N).1 * f + t.1.2,
                     size (Sierpinsky R N).1 * f + t.2) | t <- (Sierpinsky R N).2]
          | f <- iota 0 8].
Proof. by rewrite /connectivity; case: (Sierpinsky R N). Qed.

Lemma directionsE N :
  directions R N =
  flatten [seq [seq normalize (combine w corners) | w <- (Sierpinsky R N).1]
          | corners <- face_corners R].
Proof. by rewrite /directions; case: (Sierpinsky R N). Qed.

Lemma size_flatten_const (T U : Type) (f : T -> seq U) (s : seq T) m :
  (forall x, size (f x) = m) -> size (flatten [seq f x | x <- s]) = m * size s.
Proof.
move=> hf; rewrite size_flatten /shape -map_comp.
by elim: s => [|x s IH] /=; rewrite ?muln0 // IH hf mulnS.
Qed.

Lemma size_connectivity N : size (connectivity R N) = 8 * (2 ^ N) ^ 2.
Proof.
rewrite connectivityE (@size_flatten_const _ _ _ _ ((2 ^ N) ^ 2)) ?size_iota 1?mulnC //.
by move=> f; rewrite size_map Sierpinsky2_size.
Qed.

Lemma size_directions N : size (directions R N) = 8 * tri (2 ^ N).+1.
Proof.
rewrite directionsE (@size_flatten_const _ _ _ _ (tri (2 ^ N).+1)) 1?mulnC //.
by move=> f; rewrite size_map size_weights.
Qed.

Lemma size_nodes (S : tensor4 R) N : size (nodes S N) = 8 * tri (2 ^ N).+1.
Proof. by rewrite /nodes size_map size_directions. Qed.

Lemma connectivity_bound N :
  all (tri_in (fun x => x < 8 * tri (2 ^ N).+1)) (connectivity R N).
Proof.
rewrite connectivityE all_flattenE all_map size_weights.
apply/allP => f; rewrite mem_iota add0n => /andP[_ lt_f8] /=.
rewrite all_map; apply: sub_all (Sierpinsky2_bound N) => -[[a b] c] /=.
have bd x : x < tri (2 ^ N).+1 -> tri (2 ^ N).+1 * f + x < 8 * tri (2 ^ N).+1.
  move=> lt_x; apply: (@leq_trans (tri (2 ^ N).+1 * f.+1)).
    by rewrite mulnS addnC ltn_add2r.
  by rewrite mulnC leq_mul2r lt_f8 orbT.
by rewrite /tri_in /= => /and3P[/bd-> /bd-> /bd->].
Qed.

End SphereTheory.

Lemma nth_flatten_const (T U : Type) (f : T -> seq U) (s : seq T) m x0 t0 a b :
  (forall x, size (f x) = m) -> b < m -> a < size s ->
  nth x0 (flatten [seq f x | x <- s]) (m * a + b) = nth x0 (f (nth t0 s a)) b.
Proof.
move=> hf lt_bm; elim: s a => [|x s IH] [|a] //=.
  by rewrite muln0 add0n nth_cat hf lt_bm.
rewrite ltnS => lt_as; rewrite nth_cat hf mulnS -addnA.
by rewrite ltnNge leq_addr /= addKn IH.
Qed.

Lemma tri_gt0 n : 0 < tri n.+1.
Proof. by rewrite triS addnS. Qed.

Section Duplicates.
Variable R : rcfType.

Lemma first_weight N :
  nth 0%R (Sierpinsky R N).1 0 =
  vec3 ((2 ^ N)%:R / (2 ^ N)%:R) 0%R 0%R.
Proof.
rewrite Sierpinsky1E (nth_map (0, 0)) ?size_lattice ?tri_gt0 //.
have -> : nth (0, 0) (lattice (2 ^ N).+1) 0 = (0, 0) by [].
by rewrite /weight_of /= subn1 /= subn0 mul0r.
Qed.

Lemma combine_first (x : R) (c0 c1 c2 c1' c2' : 'rV[R]_3) :
  combine (vec3 x 0%R 0%R) [:: c0; c1; c2] =
  combine (vec3 x 0%R 0%R) [:: c0; c1'; c2'].
Proof.
by apply/rowP => j; rewrite !mxE !sum3 !mxE /= !mul0r.
Qed.

Lemma direction_0_4 N :
  nth 0%R (directions R N) 0 =
  nth 0%R (directions R N) (4 * tri (2 ^ N).+1).
Proof.
rewrite directionsE.
have := first_weight N; have := size_weights R N.
move: (Sierpinsky R N).1 => w szw fw.
have sz corners : size [seq normalize (combine v corners) | v <- w]
    = tri (2 ^ N).+1 by rewrite size_map.
have := @nth_flatten_const _ _ _ (face_corners R) _ 0%R [::] 0 0 sz (tri_gt0 _) isT.
rewrite muln0 addn0 => ->.
have := @nth_flatten_const _ _ _ (face_corners R) _ 0%R [::] 4 0 sz (tri_gt0 _) isT.
rewrite addn0 mulnC => ->.
rewrite !(nth_map 0%R) ?szw ?tri_gt0 // fw.
by congr normalize; exact: combine_first.
Qed.

Lemma node_0_4 (S : tensor4 R) N :
  nth 0%R (nodes S N) 0 = nth 0%R (nodes S N) (4 * tri (2 ^ N).+1).
Proof.
have lt0 : 0 < size (directions R N).
  by rewrite size_directions muln_gt0 tri_gt0.
have lt4 : 4 * tri (2 ^ N).+1 < size (directions R N).
  by rewrite size_directions ltn_mul2r tri_gt0.
by rewrite /nodes !(nth_map 0%R) // direction_0_4.
Qed.

Lemma nodes_not_uniq (S : tensor4 R) N : uniq (nodes S N) = false.
Proof.
apply/negbTE/negP => /(nth_uniq 0%R) inj.
have lt0 : 0 < size (nodes S N) by rewrite size_nodes muln_gt0 tri_gt0.
have lt4 : 4 * tri (2 ^ N).+1 < size (nodes S N).
  by rewrite size_nodes ltn_mul2r tri_gt0.
have := inj _ _ lt0 lt4; rewrite node_0_4 eqxx.
by rewrite eq_sym muln_eq0 /= eqn0Ngt tri_gt0.
Qed.

End Duplicates.

(** * The sphere: main results *)

Section SphereResults.

Variable R : rcfType.

Implicit Types (S : tensor4 R) (N : nat).

Lemma tri_pts N : tri (2 ^ N).+1 = ((2 ^ N + 1) * (2 ^ N + 2)) %/ 2.
Proof. by rewrite /tri addn1 addn2. Qed.

(** C1.  For every subdivision level [N], with [n = 2^N + 1], [Sierpinsky]
    returns exactly [n (n + 1) / 2 = (2^N + 1) (2^N + 2) / 2] rows of
    weights and exactly [(n - 1)^2 = (2^N)^2] triangles, and the assembled
    sphere has [8 (2^N + 1) (2^N + 2) / 2] points and [8 (2^N)^2]
    triangles. *)
Theorem mesh_counts S N :
  [/\ size (Sierpinsky R N).1 = ((2 ^ N + 1) * (2 ^ N + 2)) %/ 2,
      size (Sierpinsky R N).2 = (2 ^ N) ^ 2,
      size (nodes S N) = 8 * (((2 ^ N + 1) * (2 ^ N + 2)) %/ 2)
    & size (connectivity R N) = 8 * (2 ^ N) ^ 2].
Proof.
split; first by rewrite size_weights tri_pts.
- exact: Sierpinsky2_size.
- by rewrite size_nodes tri_pts.
- exact: size_connectivity.
Qed.

(** C9.  Every triangle of the assembled connectivity refers to emitted
    points: each of its three indices is below the number of points,
    [8 (2^N + 1) (2^N + 2) / 2]. *)
Theorem connectivity_valid S N :
  size (nodes S N) = 8 * (((2 ^ N + 1) * (2 ^ N + 2)) %/ 2) /\
  all (fun t : nat * nat * nat =>
         [&& t.1.1 < size (nodes S N), t.1.2 < size (nodes S N)
           & t.2 < size (nodes S N)])
      (connectivity R N).
Proof.
split; first by rewrite size_nodes tri_pts.
by rewrite size_nodes; exact: connectivity_bound.
Qed.

(** C8, as the code has it.  Points are emitted face after face and never
    merged: at every level the points at the indices [0] (first lattice
    point of face 0) and [4 P] (first lattice point of face 4), with
    [P = (2^N + 1) (2^N + 2) / 2] the number of points per face, are
    distinct valid indices holding the same position, so the point
    sequence has repetitions.  Within one face the rows of weights are
    pairwise distinct. *)
Theorem nodes_per_face S N :
  let P := ((2 ^ N + 1) * (2 ^ N + 2)) %/ 2 in
  [/\ uniq (Sierpinsky R N).1,
      0 < 4 * P < size (nodes S N),
      nth 0%R (nodes S N) 0 = nth 0%R (nodes S N) (4 * P)
    & uniq (nodes S N) = false].
Proof.
move=> P; rewrite /P -tri_pts; split; first exact: uniq_weights.
- by rewrite size_nodes ltn_mul2r muln_gt0 !tri_gt0.
- exact: node_0_4.
- exact: nodes_not_uniq.
Qed.

End SphereResults.

(** At level 0, for the compliance of the isotropic example, the 24
    emitted points are not pairwise distinct: the points number 0 and
    number 12 are the same. *)
Lemma nodes_level0_not_uniq :
  [/\ size (nodes example_S3333 0) = 24,
      nth 0%R (nodes example_S3333 0) 0 = nth 0%R (nodes example_S3333 0) 12
    & ~ uniq (nodes example_S3333 0)].
Proof.
split; first by rewrite size_nodes.
- exact: (node_0_4 example_S3333 0).
- by rewrite nodes_not_uniq.
Qed.

(** * The tensor functions: further lemmas *)

Local Open Scope ring_scope.

Section TensorFurther.

Variable R : realFieldType.

Implicit Types (C M S : 'M[R]_6) (k : constants R) (s : option string)
  (d : 'rV[R]_3).

(** ** The option [c66] for ['hexagonal'] *)

Lemma rules_hexagonal_c66 k x (C C' : 'M[R]_6) :
  (forall i j : 'I_6, (i, j) != (5%:o, 5%:o) -> C i j = C' i j) ->
  rules_hexagonal (set_c66 k x) C = rules_hexagonal k C'.
Proof.
move=> h; apply/matrixP => i j; rewrite /rules_hexagonal !assignE /= inE.
by case: eqP => // /eqP ne; exact: h.
Qed.

Lemma rules_tetragonal_c66 k x (C : 'M[R]_6) (i j : 'I_6) :
  (i, j) != (5%:o, 5%:o) ->
  rules_tetragonal (set_c66 k x) C i j = rules_tetragonal k C i j.
Proof.
move=> ne; rewrite /rules_tetragonal !assignE /= !inE.
by rewrite (negbTE ne).
Qed.

(** ** The cubic matrix *)

Lemma C66_cubic_iso3 k g :
  c44 k = Some g -> 0 < g ->
  C66fromSymmetry k (Some "cubic"%string) = Ok (iso3 (c11 k) (c12 k) g).
Proof.
move=> kg g0; rewrite C66_cubic /rules_cubic kg /= g0 /=; congr Ok.
apply/matrixP => i j; rewrite /rules_isotropic !assignE !mxE.
by case: i => [[|[|[|[|[|[|i]]]]]] Hi] //; case: j => [[|[|[|[|[|[|j]]]]]] Hj].
Qed.

(** ** When the isotropic matrix has an inverse *)

Lemma inverse66_isotropic_defined k C :
  C66fromSymmetry k (Some "isotropic"%string) = Ok C ->
  (exists S, inverse66 C = Ok S) <->
  (c11 k != c12 k) && (c11 k + 2 * c12 k != 0).
Proof.
rewrite C66_isotropic => -[<-]; rewrite rules_isotropic_iso3 /inverse66.
split=> [[S]|/andP[ab a2b]].
  case: ifP => // /iso3_unit[ab a2b _] _.
  by rewrite -subr_eq0 ab a2b.
have ab' : c11 k - c12 k != 0 by rewrite subr_eq0.
have g0 : 2^-1 * (c11 k - c12 k) != 0 by rewrite mulf_neq0 // invr_eq0 pnatr_eq0.
have [-> _] := mulmx1_unit (iso3_mulV ab' a2b g0).
by eexists.
Qed.

Lemma inverse66_zero : inverse66 (const_mx 0 : 'M[R]_6) = Raise LinAlgError.
Proof.
rewrite /inverse66 unitmxE.
have -> : (const_mx 0 : 'M[R]_6) = 0 by [].
by rewrite det0 unitr0.
Qed.

Lemma main_S3333_unrecognized k s :
  py_in s [:: "isotropic"; "cubic"; "tetragonal"; "hexagonal";
              "orthorhombic"; "monoclinic"; "triclinic"]%string = false ->
  main_S3333 k s = Raise LinAlgError.
Proof.
by move=> h; rewrite /main_S3333 (C66_unrecognized _ h) /bind inverse66_zero.
Qed.

(** ** The places of the expanded tensor *)

Lemma voigt_index (a : 'I_6) :
  voigt (nth (0%:x, 0%:x) index a).1 (nth (0%:x, 0%:x) index a).2 = a.
Proof.
by case: a => [[|[|[|[|[|[|a]]]]]] Ha] //; apply: val_inj.
Qed.

Lemma C66toC3333_index M (a b : 'I_6) :
  C66toC3333 M (nth (0%:x, 0%:x) index a).1 (nth (0%:x, 0%:x) index a).2
               (nth (0%:x, 0%:x) index b).1 (nth (0%:x, 0%:x) index b).2
  = M a b.
Proof. by rewrite C66toC3333E !voigt_index. Qed.

Lemma C66toC3333_inj M M' : C66toC3333 M = C66toC3333 M' -> M = M'.
Proof.
move=> e; apply/matrixP => a b.
by rewrite -(C66toC3333_index M) -(C66toC3333_index M') e.
Qed.

(** ** The contraction *)

Lemma contraction_scale (T : tensor4 R) d (t : R) :
  contraction T (\row_j (d 0 j * t)) = t ^+ 4 * contraction T d.
Proof.
rewrite /contraction !sum3 !mxE.
move: (T 0%:x) (T 1%:x) (T 2%:x) => T0 T1 T2.
move: (T0 0%:x) (T0 1%:x) (T0 2%:x) (T1 0%:x) (T1 1%:x) (T1 2%:x)
      (T2 0%:x) (T2 1%:x) (T2 2%:x) => T00 T01 T02 T10 T11 T12 T20 T21 T22.
by ring.
Qed.

Lemma contraction_opp (T : tensor4 R) d : contraction T (- d) = contraction T d.
Proof.
have -> : - d = \row_j (d 0 j * -1).
  by apply/rowP => j; rewrite !mxE mulrN1.
by rewrite contraction_scale -signr_odd /= expr0 mul1r.
Qed.

Lemma E_isotropic_value k C S d :
  C66fromSymmetry k (Some "isotropic"%string) = Ok C ->
  inverse66 C = Ok S ->
  norm2 d = 1 -> c11 k + c12 k != 0 ->
  E_hkl3333 (C66toC3333 S) d =
  (c11 k - c12 k) * (c11 k + 2 * c12 k) / (c11 k + c12 k).
Proof.
move=> eqC eqS n1 ab0; rewrite /E_hkl3333 (contraction_isotropic _ eqC eqS) n1.
move: eqC eqS; rewrite C66_isotropic => -[<-] /inverse66_Ok[+ _].
rewrite rules_isotropic_iso3 => /iso3_unit[ab a2b _].
by field; rewrite ab a2b ab0.
Qed.

Lemma contraction_cubic (P Q G : R) d :
  contraction (C66toC3333 (iso3 P Q G)) d =
  P * norm2 d ^+ 2
  - 2 * (P - Q - 2 * G)
      * ((d 0 0%:x * d 0 1%:x) ^+ 2 + (d 0 0%:x * d 0 2%:x) ^+ 2
         + (d 0 1%:x * d 0 2%:x) ^+ 2).
Proof.
rewrite /contraction /norm2.
have := @C66toC3333E _ (iso3 P Q G).
move: (C66toC3333 _) => T TE.
by rewrite !sum3 !TE !mxE /=; ring.
Qed.

Lemma contraction_cubic_pipeline k g C S d :
  c44 k = Some g -> 0 < g ->
  C66fromSymmetry k (Some "cubic"%string) = Ok C ->
  inverse66 C = Ok S -> norm2 d = 1 ->
  let s11 := (c11 k + c12 k) / ((c11 k - c12 k) * (c11 k + 2 * c12 k)) in
  let s12 := - c12 k / ((c11 k - c12 k) * (c11 k + 2 * c12 k)) in
  contraction (C66toC3333 S) d =
  s11 - 2 * (s11 - s12 - (2 * g)^-1)
        * ((d 0 0%:x * d 0 1%:x) ^+ 2 + (d 0 0%:x * d 0 2%:x) ^+ 2
           + (d 0 1%:x * d 0 2%:x) ^+ 2).
Proof.
move=> kg g0; rewrite (C66_cubic_iso3 kg g0) => -[<-] /inverse66_Ok[uC ->] n1 /=.
have [ab a2b gn0] := iso3_unit uC.
rewrite (invmx_uniq (iso3_mulV ab a2b gn0)) W66_iso3 !iso3_mul.
rewrite contraction_cubic n1.
by field; rewrite ab a2b gn0.
Qed.

End TensorFurther.

(** * The tensor functions: further results *)

Section TensorFurtherResults.

Variable R : realFieldType.

Implicit Types (C M S : 'M[R]_6) (k : constants R) (s : option string)
  (d : 'rV[R]_3).

(** X1.  [C66fromSymmetry] raises exactly when the symmetry is one of the
    six classes from ['cubic'] up and [c44] was not supplied: the
    comparison [c44 > 0.0] is the only one that is not guarded by
    [c44 and], and on [None] it raises [TypeError].  The function raises
    nothing else. *)
Theorem C66fromSymmetry_raises k s :
  (C66fromSymmetry k s = Raise TypeError <->
   py_in s [:: "cubic"; "tetragonal"; "hexagonal";
               "orthorhombic"; "monoclinic"; "triclinic"]%string
   /\ c44 k = None) /\
  C66fromSymmetry k s <> Raise LinAlgError.
Proof.
rewrite /C66fromSymmetry /rules_cubic /gt0 /bind.
case: (py_in s [:: "cubic"; _; _; _; _; _]%string);
  last by split=> //; split=> // -[].
by case: (c44 k) => [x|]; split=> //; split=> // -[].
Qed.

(** X2.  For symmetry ['hexagonal'] the option [c66] has no effect: the
    value stored at [C[5,5]] by the tetragonal block is overwritten with
    [0.5 (c11 - c12)] by the hexagonal block. *)
Theorem C66fromSymmetry_hexagonal_ignores_c66 k x :
  C66fromSymmetry (set_c66 k x) (Some "hexagonal"%string) =
  C66fromSymmetry k (Some "hexagonal"%string).
Proof.
rewrite !C66_hexagonal.
have -> : rules_cubic (set_c66 k x) (rules_isotropic (set_c66 k x) (const_mx 0))
          = rules_cubic k (rules_isotropic k (const_mx 0)) by [].
case: (rules_cubic _ _) => [C|e]; rewrite /bind; last by [].
by rewrite (@rules_hexagonal_c66 _ k x (rules_tetragonal (set_c66 k x) C)
              (rules_tetragonal k C)
              (fun i j ne => @rules_tetragonal_c66 _ k x C i j ne)).
Qed.

(** X3.  The isotropic result depends on [c11] and [c12] only, and the
    cubic result (or error) on [c11], [c12] and [c44] only: two sets of
    constants that agree there give the same outcome. *)
Theorem C66fromSymmetry_constants_used k k' :
  c11 k = c11 k' -> c12 k = c12 k' ->
  C66fromSymmetry k (Some "isotropic"%string) =
  C66fromSymmetry k' (Some "isotropic"%string) /\
  (c44 k = c44 k' ->
   C66fromSymmetry k (Some "cubic"%string) =
   C66fromSymmetry k' (Some "cubic"%string)).
Proof.
rewrite !C66_isotropic !C66_cubic /rules_cubic /rules_isotropic => -> ->.
by split=> // ->.
Qed.

(** X4.  With symmetry ['isotropic'] the chain
    [C66toC3333(inverse66(C66fromSymmetry(...)))] yields a compliance
    tensor exactly when [c11 <> c12] and [c11 + 2 c12 <> 0]; otherwise the
    stiffness matrix is singular and the inversion raises. *)
Theorem main_S3333_isotropic_defined k :
  (exists T, main_S3333 k (Some "isotropic"%string) = Ok T) <->
  (c11 k != c12 k) && (c11 k + 2 * c12 k != 0).
Proof.
rewrite /main_S3333 C66_isotropic /bind.
rewrite -(inverse66_isotropic_defined (C66_isotropic k)).
case: (inverse66 _) => [S|e]; last by split=> -[].
by split=> _; [exists S | exists (C66toC3333 S)].
Qed.

(** X5.  [inverse66] keeps symmetry: the Voigt inverse of a symmetric
    matrix is symmetric. *)
Theorem inverse66_preserves_symmetry M S :
  M^T = M -> inverse66 M = Ok S -> S^T = S.
Proof.
move=> sM /inverse66_Ok[uM ->].
rewrite !trmx_mul trmx_inv sM mulmxA.
by rewrite W66_diag tr_diag_mx.
Qed.

(** X6.  For a symmetric 6x6 matrix the expanded tensor has the major
    symmetry [T[i,j,k,l] = T[k,l,i,j]]. *)
Theorem C66toC3333_major_symmetry M (i j p q : 'I_3) :
  M^T = M -> C66toC3333 M i j p q = C66toC3333 M p q i j.
Proof.
by move=> sM; rewrite !C66toC3333E -{1}sM mxE.
Qed.

(** X7.  The expansion loses nothing: with [(i,j) = index[a]] and
    [(k,l) = index[b]] the entry [T[i,j,k,l]] of [T = C66toC3333 M] is
    [M[a,b]], for all Voigt places [a], [b]; so different matrices expand
    to different tensors. *)
Theorem C66toC3333_voigt_roundtrip M :
  (forall a b : 'I_6,
     C66toC3333 M (nth (0%:x, 0%:x) index a).1 (nth (0%:x, 0%:x) index a).2
                  (nth (0%:x, 0%:x) index b).1 (nth (0%:x, 0%:x) index b).2
     = M a b) /\
  (forall M', C66toC3333 M = C66toC3333 M' -> M = M').
Proof.
by split; [exact: C66toC3333_index | move=> M'; exact: C66toC3333_inj].
Qed.

(** X8.  For any tensor the contraction is homogeneous of degree four in
    the direction, so a direction and its opposite have the same
    contraction and the same modulus: the surface is centrosymmetric. *)
Theorem E_hkl3333_centrosymmetric (T : tensor4 R) d (t : R) :
  [/\ contraction T (\row_j (d 0 j * t)) = t ^+ 4 * contraction T d,
      contraction T (- d) = contraction T d
    & E_hkl3333 T (- d) = E_hkl3333 T d].
Proof.
by rewrite /E_hkl3333 contraction_opp contraction_scale.
Qed.

(** X9.  For an isotropic stiffness with an inverse and [c11 + c12 <> 0],
    the modulus along every unit direction is
    [(c11 - c12) (c11 + 2 c12) / (c11 + c12)]. *)
Theorem E_hkl3333_isotropic_modulus k C S d :
  C66fromSymmetry k (Some "isotropic"%string) = Ok C ->
  inverse66 C = Ok S ->
  norm2 d = 1 -> c11 k + c12 k != 0 ->
  E_hkl3333 (C66toC3333 S) d =
  (c11 k - c12 k) * (c11 k + 2 * c12 k) / (c11 k + c12 k).
Proof. exact: E_isotropic_value. Qed.

(** X10.  For symmetry ['cubic'] with [c44 > 0] and an invertible
    stiffness, along a unit direction [d = (l, m, n)] the modulus is the
    reciprocal of
    [s11 - 2 (s11 - s12 - 1/(2 c44)) (l^2 m^2 + l^2 n^2 + m^2 n^2)],
    with [s11 = (c11 + c12) / ((c11 - c12) (c11 + 2 c12))] and
    [s12 = - c12 / ((c11 - c12) (c11 + 2 c12))]. *)
Theorem E_hkl3333_cubic_formula k g C S d :
  c44 k = Some g -> 0 < g ->
  C66fromSymmetry k (Some "cubic"%string) = Ok C ->
  inverse66 C = Ok S -> norm2 d = 1 ->
  let s11 := (c11 k + c12 k) / ((c11 k - c12 k) * (c11 k + 2 * c12 k)) in
  let s12 := - c12 k / ((c11 k - c12 k) * (c11 k + 2 * c12 k)) in
  E_hkl3333 (C66toC3333 S) d =
  1 / (s11 - 2 * (s11 - s12 - (2 * g)^-1)
             * ((d 0 0%:x * d 0 1%:x) ^+ 2 + (d 0 0%:x * d 0 2%:x) ^+ 2
                + (d 0 1%:x * d 0 2%:x) ^+ 2)).
Proof.
move=> kg g0 eqC eqS n1 /=.
by rewrite /E_hkl3333 (contraction_cubic_pipeline kg g0 eqC eqS n1).
Qed.

(** X11.  For symmetry ['cubic'] with [c44 > 0] and an invertible
    stiffness, the contraction (hence the modulus) is the same along all
    unit directions exactly when [2 c44 = c11 - c12]. *)
Theorem cubic_isotropy_criterion k g C S :
  c44 k = Some g -> 0 < g ->
  C66fromSymmetry k (Some "cubic"%string) = Ok C ->
  inverse66 C = Ok S ->
  (forall d1 d2, norm2 d1 = 1 -> norm2 d2 = 1 ->
     contraction (C66toC3333 S) d1 = contraction (C66toC3333 S) d2) <->
  2 * g = c11 k - c12 k.
Proof.
move=> kg g0 eqC eqS.
have hd d := contraction_cubic_pipeline (d := d) kg g0 eqC eqS.
move: eqC eqS; rewrite (C66_cubic_iso3 kg g0) => -[<-] /inverse66_Ok[uC _].
have [ab a2b gn0] := iso3_unit uC.
have Xeq : (c11 k + c12 k) / ((c11 k - c12 k) * (c11 k + 2 * c12 k)) -
           - c12 k / ((c11 k - c12 k) * (c11 k + 2 * c12 k)) - (2 * g)^-1 =
           (2 * g - (c11 k - c12 k)) / ((c11 k - c12 k) * (2 * g)).
  by field; rewrite ab a2b gn0.
split=> [h|e d1 d2 n1 n2]; last first.
  by rewrite !hd //= Xeq e subrr !mul0r !mulr0 !mul0r.
have n1 : norm2 (vec3 (1 : R) 0 0) = 1 by rewrite norm2_vec3; ring.
have n2 : norm2 (vec3 (3 / 5 : R) (4 / 5) 0) = 1 by rewrite norm2_vec3; field.
have := h _ _ n1 n2; rewrite !hd //= !mxE /= Xeq.
set Y := (2 * g - _) / _ => hY.
have /eqP : Y = 0 by lra.
rewrite /Y mulf_eq0 invr_eq0 mulf_eq0 (negbTE ab) /= subr_eq0 mulf_eq0.
by rewrite (negbTE gn0) pnatr_eq0 /= !orbF => /eqP.
Qed.

End TensorFurtherResults.

(** ** The further results on the example inputs *)

Lemma example_cubic80_Ok :
  C66fromSymmetry example_cubic80 (Some "cubic"%string) =
  Ok (iso3 200 100 80).
Proof. exact: (@C66_cubic_iso3 _ example_cubic80 80 (erefl _) isT). Qed.

Lemma example_cubic80_inverse :
  inverse66 (iso3 (200 : rat) 100 80) =
  Ok (W66 rat *m invmx (iso3 200 100 80) *m W66 rat).
Proof.
rewrite /inverse66.
by have [-> //] := mulmx1_unit (@iso3_mulV rat 200 100 80 isT isT isT).
Qed.

Lemma inverse66_1 : inverse66 (1%:M : 'M[rat]_6) = Ok (W66 rat *m invmx 1%:M *m W66 rat).
Proof. by rewrite /inverse66 unitmx1. Qed.

Lemma C66fromSymmetry_constants_used_witness :
  [/\ c11 example_cubic80 = c11 (set_c66 example_cubic80 (Some 7)),
      c12 example_cubic80 = c12 (set_c66 example_cubic80 (Some 7))
    & c44 example_cubic80 = c44 (set_c66 example_cubic80 (Some 7))] /\
  C66fromSymmetry example_cubic80 (Some "isotropic"%string) =
  C66fromSymmetry (set_c66 example_cubic80 (Some 7))
    (Some "isotropic"%string) /\
  C66fromSymmetry example_cubic80 (Some "cubic"%string) =
  C66fromSymmetry (set_c66 example_cubic80 (Some 7)) (Some "cubic"%string).
Proof.
split; first by split.
have [h1 h2] := @C66fromSymmetry_constants_used rat example_cubic80
                  (set_c66 example_cubic80 (Some 7)) (erefl _) (erefl _).
by split; [exact: h1 | exact: (h2 (erefl _))].
Defined.

Lemma inverse66_preserves_symmetry_witness :
  let S := W66 rat *m invmx 1%:M *m W66 rat in
  ((1%:M : 'M[rat]_6)^T = 1%:M /\ inverse66 (1%:M : 'M[rat]_6) = Ok S) /\
  S^T = S.
Proof.
move=> S; split; first by split; [exact: trmx1 | exact: inverse66_1].
exact: (inverse66_preserves_symmetry (trmx1 _ _) inverse66_1).
Defined.

Lemma C66toC3333_major_symmetry_witness :
  (1%:M : 'M[rat]_6)^T = 1%:M /\
  C66toC3333 (1%:M : 'M[rat]_6) 0%:x 0%:x 1%:x 2%:x =
  C66toC3333 (1%:M : 'M[rat]_6) 1%:x 2%:x 0%:x 0%:x.
Proof.
split; first exact: trmx1.
exact: (C66toC3333_major_symmetry 0%:x 0%:x 1%:x 2%:x (trmx1 _ _)).
Defined.

Lemma E_hkl3333_isotropic_modulus_witness :
  let C := rules_isotropic example_isotropic (const_mx 0) in
  let S := W66 rat *m invmx C *m W66 rat in
  [/\ C66fromSymmetry example_isotropic (Some "isotropic"%string) = Ok C,
      inverse66 C = Ok S,
      norm2 (vec3 (0 : rat) 1 0) = 1 & (200 : rat) + 100 != 0] /\
  E_hkl3333 (C66toC3333 S) (vec3 0 1 0) = (200 - 100) * (200 + 2 * 100) / (200 + 100).
Proof.
move=> C S.
have hC := C66_isotropic example_isotropic.
have hS := example_isotropic_inverse.
have n1 : norm2 (vec3 (0 : rat) 1 0) = 1 by rewrite norm2_vec3.
have ab : (200 : rat) + 100 != 0 by [].
split; first by split.
exact: (E_hkl3333_isotropic_modulus hC hS n1 ab).
Defined.

Lemma E_hkl3333_cubic_formula_witness :
  let C := iso3 (200 : rat) 100 80 in
  let S := W66 rat *m invmx C *m W66 rat in
  [/\ c44 example_cubic80 = Some 80, (0 : rat) < 80,
      C66fromSymmetry example_cubic80 (Some "cubic"%string) = Ok C,
      inverse66 C = Ok S & norm2 (vec3 (1 : rat) 0 0) = 1] /\
  E_hkl3333 (C66toC3333 S) (vec3 1 0 0) =
  1 / ((200 + 100) / ((200 - 100) * (200 + 2 * 100))
       - 2 * ((200 + 100) / ((200 - 100) * (200 + 2 * 100))
              - - 100 / ((200 - 100) * (200 + 2 * 100)) - (2 * 80)^-1)
           * ((vec3 (1 : rat) 0 0 0 0%:x * vec3 (1 : rat) 0 0 0 1%:x) ^+ 2
              + (vec3 (1 : rat) 0 0 0 0%:x * vec3 (1 : rat) 0 0 0 2%:x) ^+ 2
              + (vec3 (1 : rat) 0 0 0 1%:x * vec3 (1 : rat) 0 0 0 2%:x) ^+ 2)).
Proof.
move=> C S.
have kg : c44 example_cubic80 = Some 80 by [].
have g0 : (0 : rat) < 80 by [].
have n1 : norm2 (vec3 (1 : rat) 0 0) = 1 by rewrite norm2_vec3.
split.
  split; [exact: kg | exact: g0 | exact: example_cubic80_Ok
         | exact: example_cubic80_inverse | exact: n1].
exact: (E_hkl3333_cubic_formula kg g0 example_cubic80_Ok
          example_cubic80_inverse n1).
Defined.

Lemma cubic_isotropy_criterion_witness :
  let C := iso3 (200 : rat) 100 80 in
  let S := W66 rat *m invmx C *m W66 rat in
  [/\ c44 example_cubic80 = Some 80, (0 : rat) < 80,
      C66fromSymmetry example_cubic80 (Some "cubic"%string) = Ok C
    & inverse66 C = Ok S] /\
  ((forall d1 d2 : 'rV[rat]_3, norm2 d1 = 1 -> norm2 d2 = 1 ->
      contraction (C66toC3333 S) d1 = contraction (C66toC3333 S) d2) <->
   2 * 80 = (200 : rat) - 100).
Proof.
move=> C S.
have kg : c44 example_cubic80 = Some 80 by [].
have g0 : (0 : rat) < 80 by [].
split.
  split; [exact: kg | exact: g0 | exact: example_cubic80_Ok
         | exact: example_cubic80_inverse].
exact: (cubic_isotropy_criterion kg g0 example_cubic80_Ok
          example_cubic80_inverse).
Defined.

(** * The sphere: further lemmas *)

Local Open Scope nat_scope.

(** ** The rows of the triangle array *)

Section Rows.
Variable T : Type.
Implicit Types (s : seq T).

Lemma iota_rcons k n : iota k n.+1 = rcons (iota k n) (k + n).
Proof. by rewrite -addn1 iotaD /= cats1. Qed.

Lemma rot1_map_iota (g : nat -> T) n :
  rot 1 [seq g b | b <- iota 0 n] = [seq g (b.+1 %% n) | b <- iota 0 n].
Proof.
case: n => [|n] //.
rewrite [in LHS]/iota -/(iota 1 n) map_cons rot1_cons iota_rcons map_rcons add0n modnn.
congr rcons; rewrite (iotaDl 1 0 n) -map_comp.
apply/eq_in_map => b; rewrite mem_iota add0n /= => lt_bn.
by rewrite add1n modn_small.
Qed.

Lemma drop_last_rcons s x : drop_last (rcons s x) = s.
Proof. by rewrite /drop_last size_rcons /= -cats1 take_size_cat. Qed.

Lemma zip3_map (U : Type) (g1 g2 g3 : U -> T) (s : seq U) :
  zip3 [seq g1 x | x <- s] [seq g2 x | x <- s] [seq g3 x | x <- s] =
  [seq (g1 x, g2 x, g3 x) | x <- s].
Proof. by rewrite /zip3 !zip_map -map_comp. Qed.

Lemma interleave_map (U : Type) (g h : U -> T) (s : seq U) :
  interleave [seq g x | x <- s] [seq h x | x <- s] =
  flatten [seq [:: g x; h x] | x <- s].
Proof. by rewrite /interleave zip_map -map_comp. Qed.

Lemma take_pairs (g h : nat -> T) k n : k < n ->
  take k.*2.+1 (flatten [seq [:: g b; h b] | b <- iota 0 n]) =
  rcons (flatten [seq [:: g b; h b] | b <- iota 0 k]) (g k).
Proof.
move=> lt_kn; rewrite -(subnKC lt_kn) addSnnS iotaD map_cat flatten_cat add0n.
have sz : size (flatten [seq [:: g b; h b] | b <- iota 0 k]) = k.*2.
  rewrite size_flatten /shape -map_comp.
  have -> : sumn [seq (size \o (fun b => [:: g b; h b])) i | i <- iota 0 k]
            = sumn (nseq k 2).
    congr sumn; rewrite (nseq_map_iota _ _ 0); exact: eq_map.
  by rewrite sumn_nseq mulnC muln2.
rewrite take_cat sz ltnNge leqnSn /= -addn1 addKn.
by rewrite [take 1 _]/= ?take0 cats1.
Qed.

End Rows.

Lemma triangle_rows_map (f : nat -> seq nat) m :
  drop_last (triangle_rows [seq f a | a <- iota 0 m.+1]) =
  [seq interleave (zip3 (f a) (f a.+1) (rot 1 (f a.+1)))
                  (zip3 (f a) (rot 1 (f a.+1)) (rot 1 (f a)))
  | a <- iota 0 m].
Proof.
set c := [seq f a | a <- iota 0 m.+1].
have r0 : rot 1 c = rcons [seq f a | a <- iota 1 m] (f 0).
  by rewrite -rot1_cons.
have cE : c = rcons [seq f a | a <- iota 0 m] (f m).
  by rewrite /c iota_rcons map_rcons add0n.
rewrite /triangle_rows /roll0 /roll1 r0 cE !map_rcons.
rewrite /stack3 !zip_rcons ?size_map ?size_zip ?size_map ?size_iota ?minnn //.
rewrite !map_rcons zip_rcons ?size_map ?size_zip ?size_zip ?size_map ?size_iota ?minnn //.
rewrite map_rcons drop_last_rcons.
rewrite (iotaDl 1 0 m) -!map_comp !zip_map -!map_comp.
rewrite [zip _ _]zip_map -map_comp.
exact: eq_map.
Qed.

Lemma add_column_tri n :
  add_column (nseq n (iota 0 n)) (cumsum (iota 0 n)) =
  [seq [seq b + tri a | b <- iota 0 n] | a <- iota 0 n].
Proof.
rewrite cumsum_iota /add_column (nseq_map_iota _ _ 0) zip_map -map_comp.
exact: eq_map.
Qed.

(** ** Triangles with three different corners *)

Lemma up_triangle_distinct a b : tri_distinct (up_triangle a b).
Proof.
rewrite /tri_distinct /up_triangle /= triS.
by apply/and3P; split; apply/eqP; rewrite -!plusE; lia.
Qed.

Lemma down_triangle_distinct a b : tri_distinct (down_triangle a b).
Proof.
rewrite /tri_distinct /down_triangle /= triS.
by apply/and3P; split; apply/eqP; rewrite -!plusE; lia.
Qed.

Lemma lattice_triangles_distinct m : all tri_distinct (lattice_triangles m).
Proof.
rewrite /lattice_triangles all_flattenE all_map; apply/allP => a _.
rewrite [preim _ _ _]/= all_rcons up_triangle_distinct /= all_flattenE all_map.
by apply/allP => b _; rewrite /= up_triangle_distinct down_triangle_distinct.
Qed.

(** ** The lattice, by position *)

Lemma mem_lattice n a b : b <= a < n -> (a, b) \in lattice n.
Proof.
move=> /andP[le_ba lt_an]; apply/allpairsPdep; exists a, b.
by rewrite !mem_iota !add0n /= ltnS.
Qed.

Lemma index_lattice n a b :
  b <= a < n -> seq.index (a, b) (lattice n) = b + tri a.
Proof.
move=> /mem_lattice h; have lt_i := h; rewrite -index_mem in lt_i.
have := erefl (nth 0 [seq p.2 + tri p.1 | p <- lattice n]
                     (seq.index (a, b) (lattice n))).
have lt_i' : seq.index (a, b) (lattice n) < tri n by rewrite -size_lattice.
rewrite {1}lattice_index nth_iota // add0n => {1}->.
by rewrite (nth_map (0, 0)) // nth_index.
Qed.

Lemma nth_lattice n a b :
  b <= a < n -> nth (0, 0) (lattice n) (b + tri a) = (a, b).
Proof. by move=> h; rewrite -(index_lattice h) nth_index // mem_lattice. Qed.

Section SphereFurther.

Variable R : rcfType.

Implicit Types (v w : 'rV[R]_3) (S : tensor4 R) (k : constants R).

(** ** The weights *)

Lemma weight_of_bary n a b : b <= a < n.+1 -> 0 < n ->
  let w := weight_of R n.+1 (a, b) in
  [/\ (w 0 0%:x + w 0 1%:x + w 0 2%:x = 1)%R,
      (0 <= w 0 0%:x)%R, (0 <= w 0 1%:x)%R & (0 <= w 0 2%:x)%R].
Proof.
move=> /andP[le_ba]; rewrite ltnS => le_an n0 /=.
rewrite /weight_of !mxE /= subn1 /=.
split; try by rewrite divr_ge0 ?ler0n.
have e : n - a + (a - b) + b = n.
  by move/ssrnat.leP: le_ba; move/ssrnat.leP: le_an; rewrite -!plusE -!minusE; lia.
by rewrite -!mulrDl -!natrD e divff // pnatr_eq0 -lt0n.
Qed.

Lemma weights_barycentric N :
  all (fun w : 'rV[R]_3 =>
         [&& (w 0 0%:x + w 0 1%:x + w 0 2%:x == 1)%R, (0 <= w 0 0%:x)%R,
             (0 <= w 0 1%:x)%R & (0 <= w 0 2%:x)%R])
      (Sierpinsky R N).1.
Proof.
rewrite Sierpinsky1E all_map; apply/allP => -[a b] /lattice_le/= h.
by have [-> -> -> ->] := weight_of_bary h (expn_gt0 2 N); rewrite eqxx.
Qed.

(** ** The triangles *)

Lemma Sierpinsky2E N : (Sierpinsky R N).2 = lattice_triangles (2 ^ N).
Proof.
rewrite /Sierpinsky /meshgrid_ij /arange size_iota.
cbv beta iota zeta delta [snd]; rewrite add1n.
set m := 2 ^ N.
rewrite add_column_tri triangle_rows_map mul2n slice_tril [m.+1.-1]/=.
set A := [seq interleave _ _ | a <- iota 0 m].
have szA : size A = m by rewrite size_map size_iota.
have hA : rows_of m.+1.*2 A.
  rewrite /rows_of /A all_map; apply/allP => a _.
  rewrite [preim _ _ _]/= size_interleave.
  have sz3 (x y z : seq nat) (q : nat) : size x = q -> size y = q -> size z = q ->
      size (zip3 x y z) = q.
    by move=> sx sy sz; rewrite /zip3 size_map !size_zip sx sy sz !minnn.
  by rewrite !(@sz3 _ _ _ m.+1) ?minnn ?size_rot //= size_map size_iota.
have -> : [seq [seq b <= a.*2 | b <- iota 0 m.+1.*2] | a <- iota 0 m] =
          [seq [seq b <= double a | b <- iota 0 m.+1.*2] | a <- iota 0 (size A)].
  by rewrite szA.
rewrite (@bool_index_prefix _ A double m.+1.*2 0) // szA /A.
rewrite -{1}[iota 0 m]map_id zip_map -map_comp /lattice_triangles.
congr flatten; apply/eq_in_map => a; rewrite mem_iota add0n => /andP[_ lt_am].
cbv beta iota delta [comp fst snd].
have lt0 : a < m.+1 by exact: leqW.
have lt1 : a.+1 < m.+1 by [].
rewrite !rot1_map_iota !zip3_map interleave_map (take_pairs _ _ lt0).
rewrite /up_triangle /down_triangle (modn_small lt1); congr rcons.
congr flatten; apply/eq_in_map => b; rewrite mem_iota add0n => /andP[_ lt_ba].
have lt2 : b.+1 < m.+1 by rewrite ltnS (leq_trans lt_ba) // ltnW.
by rewrite (modn_small lt2).
Qed.

(** ** Unit directions *)

Lemma norm2_ge0 v : (0 <= norm2 v)%R.
Proof. by rewrite /norm2 sum3 !addr_ge0 // sqr_ge0. Qed.

Lemma normalize_unit v : norm2 v != 0%R -> norm2 (normalize v) = 1%R.
Proof.
move=> v0; rewrite /norm2 sum3 !mxE -/(norm2 v) !expr_div_n -!mulrDl.
rewrite sqr_sqrtr ?norm2_ge0 //.
by move: v0; rewrite /norm2 sum3 => v0; rewrite divff.
Qed.

Lemma norm2_scale v (x : R) :
  norm2 (\row_j (v 0%R j * x)%R) = (x ^+ 2 * norm2 v)%R.
Proof. by rewrite /norm2 !sum3 !mxE; ring. Qed.

Lemma norm2_combine w :
  all (fun corners =>
         norm2 (combine w corners)
         == (w 0 0%:x ^+ 2 + w 0 1%:x ^+ 2 + w 0 2%:x ^+ 2)%R)
      (face_corners R).
Proof.
rewrite /face_corners /=.
do 8![apply/andP; split;
      first by apply/eqP; rewrite /norm2 sum3 !mxE !sum3 !mxE /=; ring].
by [].
Qed.

Lemma bary_norm2_neq0 (x y z : R) :
  (x + y + z = 1 -> x ^+ 2 + y ^+ 2 + z ^+ 2 != 0)%R.
Proof.
move=> s; apply/eqP => h.
have e : (3 * (x ^+ 2 + y ^+ 2 + z ^+ 2) =
          (x + y + z) ^+ 2 + (x - y) ^+ 2 + (y - z) ^+ 2 + (x - z) ^+ 2)%R.
  by ring.
have := sqr_ge0 (x - y)%R; have := sqr_ge0 (y - z)%R; have := sqr_ge0 (x - z)%R.
move: e; rewrite h s expr1n mulr0.
by move: ((x - y) ^+ 2)%R ((y - z) ^+ 2)%R ((x - z) ^+ 2)%R => p q r; lra.
Qed.

Lemma directions_unit N :
  all (fun d => norm2 d == 1%R) (directions R N).
Proof.
rewrite directionsE all_flattenE all_map; apply/allP => corners hc /=.
rewrite all_map; apply: sub_all (weights_barycentric N) => w /=.
case/and4P => /eqP s x0 y0 z0.
have /allP/(_ _ hc)/eqP e := norm2_combine w.
by rewrite normalize_unit // e bary_norm2_neq0.
Qed.

Lemma nth_directions_unit N i : i < size (directions R N) ->
  norm2 (nth 0%R (directions R N) i) = 1%R.
Proof.
move=> lt_i; apply/eqP; have /allP := directions_unit N; apply.
by rewrite mem_nth.
Qed.

(** ** The points *)

Lemma nth_nodes S N i : i < size (directions R N) ->
  nth 0%R (nodes S N) i =
  \row_j (nth 0%R (directions R N) i 0%R j
          * E_hkl3333 S (nth 0%R (directions R N) i))%R.
Proof. by move=> lt_i; rewrite /nodes (nth_map 0%R). Qed.

Lemma nodes_norm2 S N i : i < size (directions R N) ->
  norm2 (nth 0%R (nodes S N) i) =
  (E_hkl3333 S (nth 0%R (directions R N) i) ^+ 2)%R.
Proof.
by move=> lt_i; rewrite nth_nodes // norm2_scale nth_directions_unit // mulr1.
Qed.

End SphereFurther.

(** * The sphere: further results *)

Section SphereFurtherResults.

Variable R : rcfType.

Implicit Types (v w : 'rV[R]_3) (S : tensor4 R) (k : constants R).

(** X12.  With a symmetry argument that is none of the seven class names
    the chain of the script from [C66fromSymmetry] to the two arrays
    yields nothing: [C66fromSymmetry] returns the zero matrix and its
    inversion raises [LinAlgError]. *)
Theorem main_unrecognized_raises k (s : option string) N :
  py_in s [:: "isotropic"; "cubic"; "tetragonal"; "hexagonal";
              "orthorhombic"; "monoclinic"; "triclinic"]%string = false ->
  main k s N = Raise LinAlgError.
Proof. by move=> h; rewrite /main main_S3333_unrecognized. Qed.

(** X13.  Every row of weights returned by [Sierpinsky] is a barycentric
    coordinate: its three entries are non-negative and sum to one. *)
Theorem Sierpinsky_weights_barycentric N :
  all (fun w : 'rV[R]_3 =>
         [&& (w 0 0%:x + w 0 1%:x + w 0 2%:x == 1)%R, (0 <= w 0 0%:x)%R,
             (0 <= w 0 1%:x)%R & (0 <= w 0 2%:x)%R])
      (Sierpinsky R N).1.
Proof. exact: weights_barycentric. Qed.

(** X14.  The rows of weights are ordered by lattice rows: for
    [b <= a <= 2^N] the row number [b + a (a + 1) / 2] is
    [((2^N - a), (a - b), b) / 2^N]. *)
Theorem Sierpinsky_weights_index N a b :
  b <= a < (2 ^ N).+1 ->
  nth 0%R (Sierpinsky R N).1 (b + tri a) =
  vec3 ((2 ^ N - a)%:R / (2 ^ N)%:R) ((a - b)%:R / (2 ^ N)%:R)
       (b%:R / (2 ^ N)%:R).
Proof.
move=> h; rewrite Sierpinsky1E (nth_map (0, 0)) ?nth_lattice //.
  by rewrite -(index_lattice h) index_mem mem_lattice.
by rewrite /weight_of subn1.
Qed.

(** X15.  The triangles returned by [Sierpinsky] are exactly the lattice
    triangles, row after row: below each lattice point [(a, b)] with
    [b <= a < 2^N] the triangle on [(a,b), (a+1,b), (a+1,b+1)], and for
    [b < a] also the one on [(a,b), (a+1,b+1), (a,b+1)], each corner
    given by its row number in the weights.  None of the wrapped-around
    entries produced by [np.roll] survives the mask. *)
Theorem Sierpinsky_triangles N :
  (Sierpinsky R N).2 = lattice_triangles (2 ^ N).
Proof. exact: Sierpinsky2E. Qed.

(** X16.  No triangle of the assembled connectivity is degenerate: its
    three indices are pairwise different. *)
Theorem connectivity_nondegenerate N : all tri_distinct (connectivity R N).
Proof.
rewrite connectivityE Sierpinsky2E all_flattenE.
apply/allP => l /mapP[f _ ->]; rewrite all_map.
apply: sub_all (lattice_triangles_distinct (2 ^ N)) => -[[x y] z].
by rewrite /tri_distinct /= !eqn_add2l.
Qed.

(** X17.  The connectivity is laid out face after face, [(2^N)^2]
    triangles each, and the triangles of face [f] use only the points of
    face [f]: the indices from [P f] up to [P (f + 1)],
    [P = (2^N + 1) (2^N + 2) / 2]. *)
Theorem connectivity_per_face N f j :
  f < 8 -> j < (2 ^ N) ^ 2 ->
  tri_in (fun x => tri (2 ^ N).+1 * f <= x < tri (2 ^ N).+1 * f.+1)
         (nth (0, 0, 0) (connectivity R N) ((2 ^ N) ^ 2 * f + j)).
Proof.
move=> lt_f lt_j; rewrite connectivityE.
set g := fun f : nat => [seq _ | t <- _].
have sz x : size (g x) = (2 ^ N) ^ 2 by rewrite size_map Sierpinsky2_size.
rewrite (@nth_flatten_const _ _ g (iota 0 8) _ (0, 0, 0) 0 f j sz lt_j) //.
rewrite nth_iota // add0n /g (nth_map (0, 0, 0)) ?Sierpinsky2_size //.
have /allP/(_ (nth (0, 0, 0) (Sierpinsky R N).2 j)) := Sierpinsky2_bound R N.
rewrite mem_nth ?Sierpinsky2_size // => /(_ isT).
rewrite size_weights; move: (nth _ _ j) => -[[x y] z].
rewrite /tri_in /= => /and3P[h1 h2 h3].
by rewrite !leq_addr !mulnS ![tri _ + _ * _]addnC !ltn_add2l h1 h2 h3.
Qed.

(** X18.  [normalize] returns a vector of length one for every vector
    that is not zero. *)
Theorem normalize_unit_length v :
  norm2 v != 0%R -> norm2 (normalize v) = 1%R.
Proof. exact: normalize_unit. Qed.

(** X19.  Every direction the script evaluates the modulus along has
    length one: the combination of the corners of a face with a row of
    weights is never the zero vector, so [normalize] never divides by
    zero there. *)
Theorem directions_unit_length N :
  all (fun p => norm2 (combine p.1 p.2) != 0%R)
      [seq (w, c) | c <- face_corners R, w <- (Sierpinsky R N).1] /\
  all (fun d => norm2 d == 1%R) (directions R N).
Proof.
split; last exact: directions_unit.
apply/allP => -[w c] /allpairsP[[c' w'] /= [hc hw [-> ->]]].
have /allP/(_ _ hc)/eqP -> := norm2_combine w'.
have /allP/(_ _ hw)/and4P[/eqP s _ _ _] := weights_barycentric R N.
exact: bary_norm2_neq0.
Qed.

(** X20.  Every emitted point lies along its direction at the distance of
    the modulus: the point number [i] is the unit direction number [i]
    times the modulus along it, so its squared distance from the origin
    is the squared modulus (the contraction being non-zero there). *)
Theorem nodes_radius S N i :
  i < 8 * tri (2 ^ N).+1 ->
  contraction S (nth 0%R (directions R N) i) != 0%R ->
  [/\ norm2 (nth 0%R (directions R N) i) = 1%R,
      nth 0%R (nodes S N) i =
      \row_j (nth 0%R (directions R N) i 0%R j
              / contraction S (nth 0%R (directions R N) i))%R
    & (norm2 (nth 0%R (nodes S N) i)
       * contraction S (nth 0%R (directions R N) i) ^+ 2 = 1)%R].
Proof.
rewrite -(size_directions R) => lt_i c0; split.
- exact: nth_directions_unit.
- rewrite nth_nodes //; apply/rowP => j.
  by rewrite !mxE /E_hkl3333 mul1r.
- rewrite nodes_norm2 // /E_hkl3333 mul1r exprVn mulVf //.
  by rewrite expf_neq0.
Qed.

(** X21.  For symmetry ['isotropic'] with [c11 <> c12],
    [c11 + 2 c12 <> 0] and [c11 + c12 <> 0] the script produces its two
    arrays, and the points form a sphere: each has the squared distance
    [((c11 - c12) (c11 + 2 c12) / (c11 + c12))^2] from the origin. *)
Theorem main_isotropic_sphere k N :
  (c11 k != c12 k)%R -> (c11 k + 2 * c12 k != 0)%R ->
  (c11 k + c12 k != 0)%R ->
  exists nds conn,
    main k (Some "isotropic"%string) N = Ok (nds, conn) /\
    all (fun p => norm2 p ==
           ((c11 k - c12 k) * (c11 k + 2 * c12 k) / (c11 k + c12 k)) ^+ 2)%R
        nds.
Proof.
move=> ab a2b ab0.
have [S eqS] : exists S : 'M[R]_6,
    inverse66 (rules_isotropic k (const_mx 0%R)) = Ok S.
  by apply/(inverse66_isotropic_defined (C66_isotropic k)); rewrite ab a2b.
exists (nodes (C66toC3333 S) N), (connectivity R N); split.
  by rewrite /main /main_S3333 C66_isotropic /bind eqS.
apply/(all_nthP 0%R) => i; rewrite size_map => lt_i.
rewrite nodes_norm2 //.
rewrite (E_isotropic_value (C66_isotropic k) eqS) //.
exact: nth_directions_unit.
Qed.

End SphereFurtherResults.

(** ** The further results on the example inputs *)

Lemma example_alg_neq : ((200 : algR) != 100)%R.
Proof. by rewrite eqr_nat. Qed.

Lemma example_alg_neq2 : ((200 : algR) + 2 * 100 != 0)%R.
Proof. by rewrite -natrM -natrD pnatr_eq0. Qed.

Lemma example_alg_neq3 : ((200 : algR) + 100 != 0)%R.
Proof. by rewrite -natrD pnatr_eq0. Qed.

Lemma example_alg_inverse :
  inverse66 (rules_isotropic example_isotropic_alg (const_mx 0%R)) =
  Ok (W66 algR *m invmx (rules_isotropic example_isotropic_alg (const_mx 0%R))
      *m W66 algR)%R.
Proof.
have [S eqS] : exists S : 'M[algR]_6,
    inverse66 (rules_isotropic example_isotropic_alg (const_mx 0%R)) = Ok S.
  apply/(inverse66_isotropic_defined (C66_isotropic example_isotropic_alg)).
  by rewrite /= example_alg_neq example_alg_neq2.
by have [_ e] := inverse66_Ok eqS; rewrite eqS e.
Qed.

Lemma example_contraction_neq0 (d : 'rV[algR]_3) :
  norm2 d = 1%R -> contraction example_S3333 d != 0%R.
Proof.
move=> n1.
rewrite /example_S3333 -/example_isotropic_alg.
rewrite (contraction_isotropic d (C66_isotropic example_isotropic_alg)
           example_alg_inverse) n1 /= expr1n mulr1.
rewrite mulf_neq0 ?invr_eq0 ?mulf_neq0 ?example_alg_neq3 ?example_alg_neq2 //.
by rewrite subr_eq0 example_alg_neq.
Qed.

Lemma main_unrecognized_raises_witness :
  py_in (Some "trigonal"%string)
    [:: "isotropic"; "cubic"; "tetragonal"; "hexagonal";
        "orthorhombic"; "monoclinic"; "triclinic"]%string = false /\
  main example_isotropic_alg (Some "trigonal"%string) 2 = Raise LinAlgError.
Proof.
split; first by vm_compute.
by apply: main_unrecognized_raises; vm_compute.
Defined.

Lemma Sierpinsky_weights_index_witness :
  (1 <= 2 < (2 ^ 1).+1) /\
  nth 0%R (Sierpinsky algR 1).1 (1 + tri 2) =
  vec3 ((2 ^ 1 - 2)%:R / (2 ^ 1)%:R) ((2 - 1)%:R / (2 ^ 1)%:R)
       (1%:R / (2 ^ 1)%:R).
Proof.
split; first by [].
exact: (@Sierpinsky_weights_index algR 1 2 1 isT).
Defined.

Lemma connectivity_per_face_witness :
  (1 < 8 /\ 0 < (2 ^ 0) ^ 2) /\
  tri_in (fun x => tri (2 ^ 0).+1 * 1 <= x < tri (2 ^ 0).+1 * 2)
         (nth (0, 0, 0) (connectivity algR 0) ((2 ^ 0) ^ 2 * 1 + 0)).
Proof.
split; first by [].
exact: (@connectivity_per_face algR 0 1 0 isT isT).
Defined.

Lemma normalize_unit_length_witness :
  norm2 (vec3 (1 : algR) 0 0) != 0%R /\
  norm2 (normalize (vec3 (1 : algR) 0 0)) = 1%R.
Proof.
have h : norm2 (vec3 (1 : algR) 0 0) != 0%R.
  by rewrite norm2_vec3 expr1n expr0n /= !addr0 oner_neq0.
by split; [exact: h | exact: (normalize_unit_length h)].
Defined.

Lemma nodes_radius_witness :
  (0 < 8 * tri (2 ^ 0).+1 /\
   contraction example_S3333 (nth 0%R (directions algR 0) 0) != 0%R) /\
  [/\ norm2 (nth 0%R (directions algR 0) 0) = 1%R,
      nth 0%R (nodes example_S3333 0) 0 =
      \row_j (nth 0%R (directions algR 0) 0 0%R j
              / contraction example_S3333 (nth 0%R (directions algR 0) 0))%R
    & (norm2 (nth 0%R (nodes example_S3333 0) 0)
       * contraction example_S3333 (nth 0%R (directions algR 0) 0) ^+ 2
       = 1)%R].
Proof.
have lt0 : 0 < 8 * tri (2 ^ 0).+1 by [].
have c0 : contraction example_S3333 (nth 0%R (directions algR 0) 0) != 0%R.
  apply: example_contraction_neq0; apply: nth_directions_unit.
  by rewrite size_directions.
by split; [split | exact: (nodes_radius lt0 c0)].
Defined.

Lemma main_isotropic_sphere_witness :
  [/\ ((200 : algR) != 100)%R, ((200 : algR) + 2 * 100 != 0)%R
    & ((200 : algR) + 100 != 0)%R] /\
  exists nds conn,
    main example_isotropic_alg (Some "isotropic"%string) 1 = Ok (nds, conn) /\
    all (fun p => norm2 p ==
           ((200 - 100) * (200 + 2 * 100) / (200 + 100)) ^+ 2)%R
        nds.
Proof.
split; first by split; [exact: example_alg_neq | exact: example_alg_neq2 | exact: example_alg_neq3].
exact: (@main_isotropic_sphere algR example_isotropic_alg 1 example_alg_neq
          example_alg_neq2 example_alg_neq3).
Defined.

(** * The writers: lemmas *)

Section WritersTheory.

Variable R : rcfType.

Implicit Types (s : seq R) (v : 'rV[R]_3) (coords : seq 'rV[R]_3).

Lemma np_max_ge x s y : y \in x :: s -> (y <= np_max (x :: s))%R.
Proof.
rewrite /np_max /=; elim: s => [|z s IH]; first by rewrite inE => /eqP->.
rewrite inE [y \in _]inE orbCA -in_cons /= le_max => /orP[/eqP->|/IH->].
  by rewrite lexx.
by rewrite orbT.
Qed.

Lemma np_max_mem x s : np_max (x :: s) \in x :: s.
Proof.
rewrite /np_max /=; elim: s => [|z s IH]; first by rewrite inE.
rewrite /=; case: leP => _; last by rewrite !inE eqxx orbT.
by move: IH; rewrite !inE => /orP[->|->]; rewrite ?orbT.
Qed.

Lemma np_min_le x s y : y \in x :: s -> (np_min (x :: s) <= y)%R.
Proof.
rewrite /np_min /=; elim: s => [|z s IH]; first by rewrite inE => /eqP->.
rewrite inE [y \in _]inE orbCA -in_cons /= ge_min => /orP[/eqP->|/IH->].
  by rewrite lexx.
by rewrite orbT.
Qed.

Lemma linalg_norm_ge0 v : (0 <= linalg_norm v)%R.
Proof. exact: sqrtr_ge0. Qed.

End WritersTheory.

(** * The writers: results *)

Section WritersResults.

Variable R : rcfType.

Implicit Types (v : 'rV[R]_3) (coords : seq 'rV[R]_3) (S : tensor4 R).

(** X22.  In [x3d_writeData], when the largest distance [auto] of a point
    from the origin is positive, the argument [fraction] handed to the
    colormap lies between 0 and 1 for every point and is 1 for some
    point, and [minimum <= auto]. *)
Theorem x3d_fraction_range coords v :
  v \in coords -> (0 < x3d_auto coords)%R ->
  [/\ (0 <= x3d_fraction coords v <= 1)%R,
      (x3d_minimum coords <= x3d_auto coords)%R
    & exists2 u, u \in coords & x3d_fraction coords u = 1%R].
Proof.
case: coords => [|p coords] // hv a0.
have hn : linalg_norm v \in [seq linalg_norm u | u <- p :: coords].
  exact: map_f.
have le_a := np_max_ge hn; rewrite -/(x3d_auto (p :: coords)) in le_a.
split.
- rewrite /x3d_fraction; apply/andP; split.
    by rewrite divr_ge0 ?linalg_norm_ge0 // ltW.
  by rewrite ler_pdivrMr // mul1r.
- apply: le_trans le_a; exact: np_min_le.
- have hm : x3d_auto (p :: coords)
              \in [seq linalg_norm u | u <- p :: coords].
    exact: np_max_mem.
  case/mapP: hm => u hu e; exists u => //.
  by rewrite /x3d_fraction -e divff // gt_eqF.
Qed.

(** X23.  The value written for a point in the array ["E"] of the VTK
    file is the absolute value of the modulus along its direction (the
    contraction being non-zero there). *)
Theorem vtk_magnitude_modulus S N i :
  (i < 8 * tri (2 ^ N).+1)%N ->
  contraction S (nth 0%R (directions R N) i) != 0%R ->
  vtk_magnitude (nth 0%R (nodes S N) i) =
  `|E_hkl3333 S (nth 0%R (directions R N) i)|%R.
Proof.
rewrite -(size_directions R) => lt_i _.
by rewrite /vtk_magnitude /linalg_norm nodes_norm2 // sqrtr_sqr.
Qed.

End WritersResults.

(** ** The results of the writers on the example inputs *)

Lemma example_norm1 : linalg_norm (vec3 (1 : algR) 0 0)%R = 1%R.
Proof.
by rewrite /linalg_norm norm2_vec3 expr1n expr0n /= !addr0 sqrtr1.
Qed.

Lemma x3d_fraction_range_witness :
  (vec3 (1 : algR) 0 0 \in [:: vec3 (1 : algR) 0 0]
   /\ 0 < x3d_auto [:: vec3 (1 : algR) 0 0])%R /\
  [/\ (0 <= x3d_fraction [:: vec3 (1 : algR) 0 0] (vec3 1 0 0) <= 1)%R,
      (x3d_minimum [:: vec3 (1 : algR) 0 0]
       <= x3d_auto [:: vec3 (1 : algR) 0 0])%R
    & exists2 u, u \in [:: vec3 (1 : algR) 0 0]%R
                 & x3d_fraction [:: vec3 (1 : algR) 0 0]%R u = 1%R].
Proof.
have hv : (vec3 (1 : algR) 0 0 \in [:: vec3 (1 : algR) 0 0])%R.
  by rewrite inE eqxx.
have a0 : (0 < x3d_auto [:: vec3 (1 : algR) 0 0])%R.
  by rewrite /x3d_auto /np_max /= example_norm1 ltr01.
by split; [split | exact: (x3d_fraction_range hv a0)].
Defined.

Lemma vtk_magnitude_modulus_witness :
  (0 < 8 * tri (2 ^ 0).+1 /\
   contraction example_S3333 (nth 0%R (directions algR 0) 0) != 0%R) /\
  vtk_magnitude (nth 0%R (nodes example_S3333 0) 0) =
  `|E_hkl3333 example_S3333 (nth 0%R (directions algR 0) 0)|%R.
Proof.
have lt0 : 0 < 8 * tri (2 ^ 0).+1 by [].
have c0 : contraction example_S3333 (nth 0%R (directions algR 0) 0) != 0%R.
  apply: example_contraction_neq0; apply: nth_directions_unit.
  by rewrite size_directions.
by split; [split | exact: (vtk_magnitude_modulus lt0 c0)].
Defined.

(** * The sphere: the triangles as a set *)

Section FlattenUniq.

Variable T : eqType.

Lemma uniq_flatten_bounds (key : T -> nat) (lo : nat -> nat)
    (f : nat -> seq T) n :
  (forall a, uniq (f a)) ->
  (forall a, all (fun t => lo a <= key t < lo a.+1) (f a)) ->
  (forall a b, a <= b -> lo a <= lo b) ->
  uniq (flatten [seq f a | a <- iota 0 n]) /\
  all (fun t => key t < lo n) (flatten [seq f a | a <- iota 0 n]).
Proof.
move=> uf bf mono; elim: n => [|n [IHu IHb]] //.
rewrite iota_rcons add0n map_rcons -cats1 flatten_cat /= cats0.
split.
  rewrite cat_uniq IHu uf andbT /=.
  apply/hasPn => t ht; apply/negP => /(allP IHb).
  by have /allP/(_ _ ht)/andP[le_lo _] := bf n; rewrite ltnNge le_lo.
rewrite all_cat; apply/andP; split.
  by apply: sub_all IHb => t lt_t; apply: leq_trans lt_t (mono _ _ (leqnSn n)).
by apply: sub_all (bf n) => t /andP[].
Qed.

End FlattenUniq.

Lemma up_down_neq a b b' : up_triangle a b != down_triangle a b'.
Proof.
rewrite /up_triangle /down_triangle; apply/eqP => -[e1 e2 e3].
by move: e1 e2; rewrite -!plusE; lia.
Qed.

Lemma uniq_lattice_row a :
  uniq (rcons (flatten [seq [:: up_triangle a b; down_triangle a b]
                       | b <- iota 0 a])
              (up_triangle a a)).
Proof.
rewrite -(@take_pairs _ (up_triangle a) (down_triangle a) a a.+1) //.
apply: take_uniq.
have [] // := @uniq_flatten_bounds _ (fun t => t.1.1) (fun b => b + tri a)
                (fun b => [:: up_triangle a b; down_triangle a b]) a.+1.
- by move=> b /=; rewrite inE up_down_neq.
- by move=> b /=; rewrite leqnn addSn ltnSn.
- by move=> b b' le_b; rewrite leq_add2r.
Qed.

Lemma lattice_row_bounds a :
  all (fun t : nat * nat * nat => tri a <= t.1.1 < tri a.+1)
      (rcons (flatten [seq [:: up_triangle a b; down_triangle a b]
                      | b <- iota 0 a])
             (up_triangle a a)).
Proof.
have bd b : b <= a -> tri a <= b + tri a < tri a.+1.
  by move=> le_ba; rewrite leq_addl triS [b + _]addnC ltn_add2l ltnS.
rewrite all_rcons [up_triangle a a]lock /= -lock [(up_triangle a a).1.1]/=.
rewrite bd //= all_flattenE all_map.
apply/allP => b; rewrite mem_iota add0n => /andP[_ lt_ba] /=.
by rewrite !bd // ltnW.
Qed.

Lemma uniq_lattice_triangles m : uniq (lattice_triangles m).
Proof.
have [] // := @uniq_flatten_bounds _ (fun t : nat * nat * nat => t.1.1) tri
   (fun a => rcons (flatten [seq [:: up_triangle a b; down_triangle a b]
                            | b <- iota 0 a]) (up_triangle a a)) m.
- exact: uniq_lattice_row.
- exact: lattice_row_bounds.
- exact: leq_tri.
Qed.

Lemma lattice_triangles_first m :
  all (fun t : nat * nat * nat => t.1.1 < tri m) (lattice_triangles m).
Proof.
have [] // := @uniq_flatten_bounds _ (fun t : nat * nat * nat => t.1.1) tri
   (fun a => rcons (flatten [seq [:: up_triangle a b; down_triangle a b]
                            | b <- iota 0 a]) (up_triangle a a)) m.
- exact: uniq_lattice_row.
- exact: lattice_row_bounds.
- exact: leq_tri.
Qed.

Lemma up_triangle_mem m a b :
  b <= a < m -> up_triangle a b \in lattice_triangles m.
Proof.
move=> /andP[le_ba lt_am]; apply/flattenP.
exists (rcons (flatten [seq [:: up_triangle a b'; down_triangle a b']
                       | b' <- iota 0 a]) (up_triangle a a)).
  by apply/mapP; exists a => //; rewrite mem_iota add0n.
rewrite mem_rcons inE; move: le_ba; rewrite leq_eqVlt => /orP[/eqP->|lt_ba].
  by rewrite eqxx.
apply/orP; right; apply/flattenP; exists [:: up_triangle a b; down_triangle a b].
  by apply/mapP; exists b => //; rewrite mem_iota add0n.
by rewrite inE eqxx.
Qed.

Lemma lattice_point_used m x : 0 < m -> x < tri m.+1 ->
  has (fun t : nat * nat * nat => [|| t.1.1 == x, t.1.2 == x | t.2 == x])
      (lattice_triangles m).
Proof.
move=> m0 lt_x.
have : x \in iota 0 (tri m.+1) by rewrite mem_iota add0n.
move=> {lt_x}; rewrite -lattice_index => /mapP[[a b] /lattice_le/= /andP[le_ba lt_a] ->].
move: lt_a; rewrite ltnS leq_eqVlt => /orP[/eqP ea|lt_am].
  case: m m0 ea => // m _ ea; rewrite ea in le_ba *.
  move: le_ba; rewrite leq_eqVlt => /orP[/eqP ->|]; last first.
    rewrite ltnS => le_bm; apply/hasP; exists (up_triangle m b).
      by apply: up_triangle_mem; rewrite le_bm ltnSn.
    by rewrite /up_triangle /= eqxx orbT.
  apply/hasP; exists (up_triangle m m).
    by apply: up_triangle_mem; rewrite leqnn ltnSn.
  by rewrite /up_triangle /= eqxx !orbT.
apply/hasP; exists (up_triangle a b); first by apply: up_triangle_mem; rewrite le_ba.
by rewrite /up_triangle /= eqxx.
Qed.

(** * The sphere: the triangles as a set, results *)

Section TriangleSetResults.

Variable R : rcfType.

(** X24.  The assembled connectivity lists no triangle twice. *)
Theorem connectivity_uniq N : uniq (connectivity R N).
Proof.
rewrite connectivityE Sierpinsky2E size_weights.
set P := tri (2 ^ N).+1; set c := lattice_triangles (2 ^ N).
have [] // := @uniq_flatten_bounds _ (fun t : nat * nat * nat => t.1.1)
   (fun f => P * f)
   (fun f => [seq (P * f + t.1.1, P * f + t.1.2, P * f + t.2) | t <- c]) 8.
- move=> f; rewrite map_inj_uniq ?uniq_lattice_triangles //.
  by move=> [[x y] z] [[x' y'] z'] /= [/addnI-> /addnI-> /addnI->].
- move=> f; rewrite all_map.
  apply: sub_all (lattice_triangles_first (2 ^ N)) => t /= lt_t.
  rewrite leq_addr mulnS [P + _]addnC ltn_add2l.
  by apply: leq_trans lt_t _; apply: leq_tri.
- by move=> f f' le_f; rewrite leq_mul2l le_f orbT.
Qed.

(** X25.  No point is left out of the surface: every point index below
    [8 (2^N + 1) (2^N + 2) / 2] is a corner of some triangle of the
    assembled connectivity. *)
Theorem connectivity_covers N x :
  x < 8 * tri (2 ^ N).+1 ->
  has (fun t : nat * nat * nat => [|| t.1.1 == x, t.1.2 == x | t.2 == x])
      (connectivity R N).
Proof.
rewrite connectivityE Sierpinsky2E size_weights.
set P := tri (2 ^ N).+1 => lt_x.
have P0 : 0 < P by exact: tri_gt0.
have lt_f : x %/ P < 8 by rewrite ltn_divLR // mulnC.
have lt_y : x %% P < P by rewrite ltn_mod.
have /hasP[t ht hx] := lattice_point_used (expn_gt0 2 N) lt_y.
apply/hasP; exists (P * (x %/ P) + t.1.1, P * (x %/ P) + t.1.2,
                    P * (x %/ P) + t.2).
  apply/flattenP; exists [seq (P * (x %/ P) + u.1.1, P * (x %/ P) + u.1.2,
                              P * (x %/ P) + u.2) | u <- lattice_triangles (2 ^ N)].
    by apply/mapP; exists (x %/ P) => //; rewrite mem_iota add0n.
  by apply/mapP; exists t.
have e y : (P * (x %/ P) + y == x) = (y == x %% P).
  by rewrite {2}(divn_eq x P) mulnC eqn_add2l.
by rewrite /= !e.
Qed.

End TriangleSetResults.

(** ** The coverage on an example *)

Lemma connectivity_covers_witness :
  5 < 8 * tri (2 ^ 1).+1 /\
  has (fun t : nat * nat * nat => [|| t.1.1 == 5, t.1.2 == 5 | t.2 == 5])
      (connectivity algR 1).
Proof.
split; first by [].
exact: (@connectivity_covers algR 1 5 isT).
Defined.

(** * The builder for ['triclinic'] *)

Local Open Scope ring_scope.

Section Triclinic.

Variable R : realFieldType.

Implicit Types (C M : 'M[R]_6) (k : constants R).

(** The blocks when the constants they read are supplied and positive:
    plain assignments of the constants. *)

Lemma rules_tetragonal_provided k C :
  provided (c33 k) -> provided (c66 k) -> provided (c13 k) ->
  provided (c16 k) ->
  rules_tetragonal k C =
  assign [:: (5%:o, 0%:o)] (- the (c16 k))
    (assign [:: (0%:o, 5%:o)] (the (c16 k))
      (assign [:: (0%:o, 2%:o); (1%:o, 2%:o); (2%:o, 0%:o); (2%:o, 1%:o)]
              (the (c13 k))
        (assign [:: (5%:o, 5%:o)] (the (c66 k))
          (assign [:: (2%:o, 2%:o)] (the (c33 k)) C)))).
Proof. by rewrite /rules_tetragonal => -> -> -> ->. Qed.

Lemma rules_orthorhombic_provided k C :
  provided (c22 k) -> provided (c33 k) -> provided (c55 k) ->
  provided (c66 k) -> provided (c23 k) ->
  rules_orthorhombic k C =
  assign [:: (1%:o, 2%:o); (2%:o, 1%:o)] (the (c23 k))
    (assign [:: (5%:o, 5%:o)] (the (c66 k))
      (assign [:: (4%:o, 4%:o)] (the (c55 k))
        (assign [:: (2%:o, 2%:o)] (the (c33 k))
          (assign [:: (1%:o, 1%:o)] (the (c22 k)) C)))).
Proof. by rewrite /rules_orthorhombic => -> -> -> -> ->. Qed.

Lemma rules_monoclinic_provided k C :
  provided (c26 k) -> provided (c36 k) -> provided (c45 k) ->
  rules_monoclinic k C =
  assign [:: (3%:o, 4%:o); (4%:o, 3%:o)] (the (c45 k))
    (assign [:: (2%:o, 5%:o); (5%:o, 2%:o)] (the (c36 k))
      (assign [:: (1%:o, 5%:o); (5%:o, 1%:o)] (the (c26 k)) C)).
Proof. by rewrite /rules_monoclinic => -> -> ->. Qed.

Lemma rules_triclinic_provided k C :
  provided (c14 k) -> provided (c15 k) -> provided (c24 k) ->
  provided (c25 k) -> provided (c34 k) -> provided (c35 k) ->
  provided (c36 k) -> provided (c46 k) -> provided (c56 k) ->
  rules_triclinic k C =
  assign [:: (4%:o, 5%:o); (5%:o, 4%:o)] (the (c56 k))
    (assign [:: (3%:o, 5%:o); (5%:o, 3%:o)] (the (c46 k))
      (assign [:: (2%:o, 5%:o); (5%:o, 2%:o)] (the (c36 k))
        (assign [:: (2%:o, 4%:o); (4%:o, 2%:o)] (the (c35 k))
          (assign [:: (2%:o, 3%:o); (3%:o, 2%:o)] (the (c34 k))
            (assign [:: (1%:o, 4%:o); (4%:o, 1%:o)] (the (c25 k))
              (assign [:: (1%:o, 3%:o); (3%:o, 1%:o)] (the (c24 k))
                (assign [:: (0%:o, 4%:o); (4%:o, 0%:o)] (the (c15 k))
                  (assign [:: (0%:o, 3%:o); (3%:o, 0%:o)] (the (c14 k))
                     C)))))))).
Proof. by rewrite /rules_triclinic => -> -> -> -> -> -> -> -> ->. Qed.

End Triclinic.

Section TriclinicResults.

Variable R : realFieldType.

Implicit Types (C M : 'M[R]_6) (k : constants R).

(** X26.  For symmetry ['triclinic'] with all 19 optional constants
    supplied and positive, the built matrix holds each of the 21
    constants at its place of the upper triangle, and mirrors them below
    the diagonal except at [C[5,0]], which holds [- c16]. *)
Theorem C66fromSymmetry_triclinic_entries k :
  all (@provided R) (optional_constants k) ->
  exists2 M, C66fromSymmetry k (Some "triclinic"%string) = Ok M &
    all (fun e : 'I_6 * 'I_6 * R =>
           (M e.1.1 e.1.2 == e.2) &&
           (M e.1.2 e.1.1 ==
            if e.1 == (0%:o, 5%:o) then - e.2 else e.2))
        (upper_triangle k).
Proof.
rewrite /optional_constants /= => /and5P[h13 h14 h15 h16].
move=> /and5P[h22 h23 h24 h25] /and5P[h26 h33 h34 h35].
move=> /and5P[h36 h44 h45 h46] /and4P[h55 h56 h66 _].
rewrite C66_triclinic /rules_cubic /gt0.
have [x kx x0] : exists2 x, c44 k = Some x & 0 < x.
  by move: h44; rewrite provided_pos; case: (c44 k) => // x; exists x.
rewrite kx /bind x0.
rewrite rules_triclinic_provided // rules_monoclinic_provided //.
rewrite rules_orthorhombic_provided // rules_tetragonal_provided //.
rewrite /rules_hexagonal /rules_isotropic.
eexists; first reflexivity.
by repeat (apply/andP; split); rewrite ?assignE ?mxE /= ?kx ?eqxx.
Qed.

End TriclinicResults.

Lemma C66fromSymmetry_triclinic_entries_witness :
  all (@provided rat) (optional_constants example_triclinic) /\
  exists2 M, C66fromSymmetry example_triclinic (Some "triclinic"%string)
             = Ok M &
    all (fun e : 'I_6 * 'I_6 * rat =>
           (M e.1.1 e.1.2 == e.2) &&
           (M e.1.2 e.1.1 ==
            if e.1 == (0%:o, 5%:o) then - e.2 else e.2))
        (upper_triangle example_triclinic).
Proof.
have h : all (@provided rat) (optional_constants example_triclinic).
  by vm_compute.
by split; [exact: h | exact: (C66fromSymmetry_triclinic_entries h)].
Defined.
